(** * Polyclinic: patient records and the roster that owns them

    A shallow embedding of [Polyclinic.cpp].  The three patient classes
    ([Patient], [ChildPatient], [ElderPatient]) become records; an object of
    the hierarchy, seen through a [Patient*], is a value of the sum type
    [object], and a virtual call is a [match] on it.  The roster
    ([Polyclinic]) holds a [std::vector<std::unique_ptr<Patient>>]: here a
    list of locations into a heap of objects, so that cloning, ownership and
    destruction are visible in the model. *)

From stdpp Require Import base numbers list strings pretty gmap.

Local Open Scope Z_scope.

(** ** Machine integers *)

(** [int] is 32 bits wide. *)
Definition INT_MIN : Z := - 2 ^ 31.
Definition INT_MAX : Z := 2 ^ 31 - 1.

Definition in_int (z : Z) : Prop := INT_MIN ≤ z ≤ INT_MAX.

(** Reduction of a mathematical integer to the [int] with the same low 32
    bits (two's complement). *)
Definition wrap_int (z : Z) : Z := (z + 2 ^ 31) `mod` 2 ^ 32 - 2 ^ 31.

(** [a + b] on two [int]s.  The language leaves the overflowing case
    undefined; the usual targets wrap, which is what is written out here.
    Every statement about a sum below is made where the sum is in range, where
    the choice does not matter. *)
Definition int_add (a b : Z) : Z := wrap_int (a + b).

(** [static_cast<int>(n)] for a [size_t] container size [n]. *)
Definition static_cast_int (n : nat) : Z := wrap_int (Z.of_nat n).

(** [std::to_string(int)]: the decimal numeral, with a leading [-] for a
    negative value. *)
Definition to_string (n : Z) : string := pretty n.

(** The one-character string of a line feed. *)
Definition newline : string := String (Ascii.ascii_of_nat 10) EmptyString.

(** ** Exceptions and the execution monad *)

(** The three exception classes; each carries the [what()] text. *)
Inductive exn : Type :=
| FileSaveError (what : string)
| EmptyClinicError (what : string)
| PatientIndexError (what : string).

(** How a call ends: it returns, an exception leaves it, or it runs into
    undefined behaviour (a pointer to no live object is used). *)
Inductive outcome (A : Type) : Type :=
| Ret (a : A)
| Throw (e : exn)
| Undef.
Arguments Ret {A} a.
Arguments Throw {A} e.
Arguments Undef {A}.

(** A computation over a state [S]; the state component of the result is the
    state at the point where the call ended, also when it ended by [Throw]. *)
Definition M (S A : Type) : Type := S → outcome A * S.

Global Instance M_ret {S} : MRet (M S) := λ A a s, (Ret a, s).

Global Instance M_bind {S} : MBind (M S) := λ A B f m s,
  match m s with
  | (Ret a, s') => f a s'
  | (Throw e, s') => (Throw e, s')
  | (Undef, s') => (Undef, s')
  end.

Definition throw {S A} (e : exn) : M S A := λ s, (Throw e, s).

(** ** class Patient *)

Module Patient.

Record t : Type := Build {
  name : string;
  age : Z;
  disease : string
}.

(** [Patient()] *)
Definition ctor_default : t :=
  {| name := "Невідомо"; age := 0; disease := "Немає" |}.

(** [Patient(std::string name, int age, std::string disease)] *)
Definition ctor (name : string) (age : Z) (disease : string) : t :=
  {| name := name; age := age; disease := disease |}.

(** [Patient(const Patient& other)] *)
Definition ctor_copy (other : t) : t :=
  {| name := name other; age := age other; disease := disease other |}.

(** [Patient::printInfo]: the text sent to [std::cout]. *)
Definition printInfo (this : t) : string :=
  "Пацієнт: " +:+ name this
    +:+ ", вік: " +:+ to_string (age this)
    +:+ ", діагноз: " +:+ disease this +:+ newline.

(** [Patient::toLine] *)
Definition toLine (this : t) : string :=
  "Patient" +:+ "|" +:+ name this +:+ "|" +:+ to_string (age this)
    +:+ "|" +:+ disease this.

Definition getName (this : t) : string := name this.
Definition getAge (this : t) : Z := age this.
Definition getDisease (this : t) : string := disease this.

Definition setAge (this : t) (a : Z) : t :=
  {| name := name this; age := a; disease := disease this |}.

(** [operator==] and [operator!=] *)
Definition op_eq (this other : t) : bool :=
  String.eqb (name this) (name other) && (age this =? age other).
Definition op_ne (this other : t) : bool := negb (op_eq this other).

End Patient.

(** ** class ChildPatient : public Patient *)

Module ChildPatient.

Record t : Type := Build {
  base : Patient.t;
  parentContact : string
}.

(** [ChildPatient()] *)
Definition ctor_default : t :=
  {| base := Patient.ctor_default;
     parentContact := "Немає контакту батьків" |}.

(** [ChildPatient(name, age, disease, parentContact)] *)
Definition ctor (name : string) (age : Z) (disease parentContact : string) : t :=
  {| base := Patient.ctor name age disease; parentContact := parentContact |}.

(** The implicit copy constructor: the base subobject through
    [Patient(const Patient&)], then the member. *)
Definition ctor_copy (other : t) : t :=
  {| base := Patient.ctor_copy (base other);
     parentContact := parentContact other |}.

Definition needParentalPermission (this : t) : bool :=
  Patient.getAge (base this) <? 18.

Definition printInfo (this : t) : string :=
  "Дитячий пацієнт: " +:+ Patient.getName (base this)
    +:+ ", вік: " +:+ to_string (Patient.getAge (base this))
    +:+ ", діагноз: " +:+ Patient.getDisease (base this)
    +:+ ", контакт батьків: " +:+ parentContact this
    +:+ ", потрібен дозвіл: "
    +:+ (if needParentalPermission this then "так" else "ні")
    +:+ newline.

Definition toLine (this : t) : string :=
  "Child" +:+ "|" +:+ Patient.getName (base this)
    +:+ "|" +:+ to_string (Patient.getAge (base this))
    +:+ "|" +:+ Patient.getDisease (base this) +:+ "|" +:+ parentContact this.

End ChildPatient.

(** ** class ElderPatient : public Patient *)

Module ElderPatient.

Record t : Type := Build {
  base : Patient.t;
  allergies : string;
  contraindications : string
}.

(** [ElderPatient()] *)
Definition ctor_default : t :=
  {| base := Patient.ctor_default;
     allergies := "Немає"; contraindications := "Немає" |}.

(** [ElderPatient(name, age, disease, allergies, contraindications)] *)
Definition ctor (name : string) (age : Z)
    (disease allergies contraindications : string) : t :=
  {| base := Patient.ctor name age disease;
     allergies := allergies; contraindications := contraindications |}.

(** The implicit copy constructor. *)
Definition ctor_copy (other : t) : t :=
  {| base := Patient.ctor_copy (base other);
     allergies := allergies other;
     contraindications := contraindications other |}.

Definition printMedicalWarnings (this : t) : string :=
  "  Алергії: " +:+ allergies this
    +:+ " | Протипоказання: " +:+ contraindications this +:+ newline.

Definition printInfo (this : t) : string :=
  ("Літній пацієнт: " +:+ Patient.getName (base this)
    +:+ ", вік: " +:+ to_string (Patient.getAge (base this))
    +:+ ", діагноз: " +:+ Patient.getDisease (base this) +:+ newline)
    +:+ printMedicalWarnings this.

Definition toLine (this : t) : string :=
  "Elder" +:+ "|" +:+ Patient.getName (base this)
    +:+ "|" +:+ to_string (Patient.getAge (base this))
    +:+ "|" +:+ Patient.getDisease (base this)
    +:+ "|" +:+ allergies this +:+ "|" +:+ contraindications this.

End ElderPatient.

(** ** Objects behind a [Patient*] and virtual dispatch *)

(** The dynamic type of an object of the hierarchy, with its state. *)
Inductive object : Type :=
| IsPatient (p : Patient.t)
| IsChild (c : ChildPatient.t)
| IsElder (e : ElderPatient.t).

(** The [Patient] subobject: what a [const Patient&] bound to the object
    gives to the non-virtual members. *)
Definition as_Patient (o : object) : Patient.t :=
  match o with
  | IsPatient p => p
  | IsChild c => ChildPatient.base c
  | IsElder e => ElderPatient.base e
  end.

(** [p.printInfo()] through the vtable. *)
Definition printInfo (o : object) : string :=
  match o with
  | IsPatient p => Patient.printInfo p
  | IsChild c => ChildPatient.printInfo c
  | IsElder e => ElderPatient.printInfo e
  end.

(** [p.toLine()] through the vtable. *)
Definition toLine (o : object) : string :=
  match o with
  | IsPatient p => Patient.toLine p
  | IsChild c => ChildPatient.toLine c
  | IsElder e => ElderPatient.toLine e
  end.

(** [a == b] on two objects of the hierarchy: [Patient::operator==] is not
    virtual and sees the [Patient] subobjects only. *)
Definition op_eq (a b : object) : bool :=
  Patient.op_eq (as_Patient a) (as_Patient b).

(** [a != b] on two objects of the hierarchy. *)
Definition op_ne (a b : object) : bool :=
  Patient.op_ne (as_Patient a) (as_Patient b).

(** A non-const member of [Patient] called on an object of the hierarchy: it
    works on the [Patient] subobject, and the rest of the object stays. *)
Definition on_Patient (f : Patient.t → Patient.t) (o : object) : object :=
  match o with
  | IsPatient p => IsPatient (f p)
  | IsChild c =>
      IsChild {| ChildPatient.base := f (ChildPatient.base c);
                 ChildPatient.parentContact := ChildPatient.parentContact c |}
  | IsElder e =>
      IsElder {| ElderPatient.base := f (ElderPatient.base e);
                 ElderPatient.allergies := ElderPatient.allergies e;
                 ElderPatient.contraindications :=
                   ElderPatient.contraindications e |}
  end.

(** ** The heap of patient objects *)

(** An address of a heap object, and the heap: the objects now alive, by
    address.  A [std::unique_ptr<Patient>] is the address it holds. *)
Abbreviation loc := positive (only parsing).
Abbreviation heap := (gmap positive object) (only parsing).

Definition undef {S A} : M S A := λ s, (Undef, s).

(** [std::make_unique<T>(x)]: a new object, at an address that held no live
    object. *)
Definition make_unique (o : object) : M heap loc :=
  λ h, let l := fresh (dom h) in (Ret l, <[l := o]> h).

(** [*p] on a [Patient*]. *)
Definition deref (p : loc) : M heap object :=
  λ h, match h !! p with
       | Some o => (Ret o, h)
       | None => (Undef, h)
       end.

(** The destructor of a [std::unique_ptr<Patient>] that holds [p]: the object
    is deleted. *)
Definition destroy (p : loc) : M heap unit :=
  λ h, match h !! p with
       | Some _ => (Ret (), delete p h)
       | None => (Undef, h)
       end.

(** [o.clone()] through the vtable: every class copy-constructs an object of
    its own type. *)
Definition clone (o : object) : M heap loc :=
  match o with
  | IsPatient p => make_unique (IsPatient (Patient.ctor_copy p))
  | IsChild c => make_unique (IsChild (ChildPatient.ctor_copy c))
  | IsElder e => make_unique (IsElder (ElderPatient.ctor_copy e))
  end.

(** Stack unwinding: when [body] throws, the destructors of the locals
    ([cleanup]) run and the exception goes on to the caller. *)
Definition unwinding {S A} (cleanup : M S unit) (body : M S A) : M S A :=
  λ s, match body s with
       | (Throw e, s') =>
           match cleanup s' with
           | (Ret _, s'') => (Throw e, s'')
           | (_, s'') => (Undef, s'')
           end
       | r => r
       end.

(** ** Files *)

(** What the program sees of the file system: which paths can be opened for
    writing, and the text of the files that exist. *)
Record filesystem : Type := Filesystem {
  can_open : string → bool;
  files : gmap string string
}.

(** [std::ofstream ofs(path)]: where the path can be opened the file is
    created or truncated; the result is the state of the stream ([true] for
    good). *)
Definition ofstream_open (path : string) : M (heap * filesystem) bool :=
  λ s, if can_open s.2 path
       then (Ret true,
             (s.1, {| can_open := can_open s.2;
                      files := <[path := ""]> (files s.2) |}))
       else (Ret false, s).

(** [ofs << text] on the stream of [path]; a write to an open stream is taken
    to succeed. *)
Definition ofstream_put (path text : string) : M (heap * filesystem) unit :=
  λ s, (Ret (),
        (s.1, {| can_open := can_open s.2;
                 files := <[path := default "" (files s.2 !! path) +:+ text]>
                            (files s.2) |})).

(** A heap computation run where there are files as well. *)
Definition with_files {A} (m : M heap A) : M (heap * filesystem) A :=
  λ s, let '(r, h') := m s.1 in (r, (h', s.2)).

(** ** class Polyclinic *)

Module Polyclinic.

Record t : Type := Build {
  name : string;
  address : string;
  doctorsCount : Z;
  patients : list loc
}.

(** [Polyclinic()] *)
Definition ctor_default : t :=
  {| name := "Без назви"; address := "Невідомо"; doctorsCount := 0;
     patients := [] |}.

(** [Polyclinic(std::string name, std::string address, int doctors)] *)
Definition ctor (name address : string) (doctors : Z) : t :=
  {| name := name; address := address;
     doctorsCount := if doctors <? 0 then 0 else doctors;
     patients := [] |}.

(** [for (const auto& p : src) dst.push_back(p->clone());] with [dst] the
    vector being filled.  The [reserve] before the loop sets the capacity of
    the vector, which is not part of the model. *)
Fixpoint clone_all (src dst : list loc) : M heap (list loc) :=
  match src with
  | [] => mret dst
  | p :: rest =>
      o ← deref p;
      q ← clone o;
      clone_all rest (dst ++ [q])
  end.

(** [Polyclinic(const Polyclinic& other)] *)
Definition ctor_copy (other : t) : M heap t :=
  ps ← clone_all (patients other) [];
  mret {| name := name other; address := address other;
          doctorsCount := doctorsCount other; patients := ps |}.

(** Assignment to one data member. *)
Definition with_name (c : t) (n : string) : t :=
  {| name := n; address := address c; doctorsCount := doctorsCount c;
     patients := patients c |}.

Definition with_doctorsCount (c : t) (d : Z) : t :=
  {| name := name c; address := address c; doctorsCount := d;
     patients := patients c |}.

Definition with_patients (c : t) (ps : list loc) : t :=
  {| name := name c; address := address c; doctorsCount := doctorsCount c;
     patients := ps |}.

(** A member function of a non-const roster runs on the receiver and the
    heap. *)
Definition on_heap {A} (m : M heap A) : M (t * heap) A :=
  λ s, let '(r, h') := m s.2 in (r, (s.1, h')).

Definition get_this : M (t * heap) t := λ s, (Ret s.1, s).

Definition set_patients (ps : list loc) : M (t * heap) unit :=
  λ s, (Ret (), (with_patients s.1 ps, s.2)).

(** [void addPatient(const Patient& p)] *)
Definition addPatient (p : object) : M (t * heap) unit :=
  q ← on_heap (clone p);
  this ← get_this;
  set_patients (patients this ++ [q]).

(** [addChild]: a local [ChildPatient] is built and handed to [addPatient]. *)
Definition addChild (pname : string) (age : Z) (disease parentContact : string)
    : M (t * heap) unit :=
  addPatient (IsChild (ChildPatient.ctor pname age disease parentContact)).

(** [addElder] *)
Definition addElder (pname : string) (age : Z)
    (disease allergies contraindications : string) : M (t * heap) unit :=
  addPatient
    (IsElder (ElderPatient.ctor pname age disease allergies contraindications)).

(** [patients.pop_back()]: the last [unique_ptr] is destroyed and leaves the
    vector. *)
Definition pop_back : M (t * heap) unit :=
  this ← get_this;
  match last (patients this) with
  | None => undef
  | Some p => on_heap (destroy p);; set_patients (removelast (patients this))
  end.

(** [void removeLastPatient()] *)
Definition removeLastPatient : M (t * heap) unit :=
  this ← get_this;
  if decide (patients this = [])
  then throw (EmptyClinicError "Немає пацієнтів для видалення")
  else pop_back.

(** [patients.erase(patients.begin() + i)]: the [unique_ptr] at [i] is
    destroyed and the later ones move down by one. *)
Definition erase (i : nat) : M (t * heap) unit :=
  this ← get_this;
  match patients this !! i with
  | None => undef
  | Some p => on_heap (destroy p);; set_patients (delete i (patients this))
  end.

(** [void removePatientByIndex(size_t index)] *)
Definition removePatientByIndex (index : nat) : M (t * heap) unit :=
  this ← get_this;
  if (length (patients this) <=? index)%nat
  then throw (PatientIndexError "Індекс за межами діапазону")
  else erase index.

(** [int getPatientsCount() const] *)
Definition getPatientsCount (this : t) : Z :=
  static_cast_int (length (patients this)).

(** [const Patient* getPatientPtr(size_t index) const]; [None] is
    [nullptr]. *)
Definition getPatientPtr (this : t) (index : nat) : option loc :=
  if (index <? length (patients this))%nat
  then patients this !! index
  else None.

(** [Polyclinic& operator++()]; the reference returned is the receiver. *)
Definition op_preinc : M (t * heap) unit :=
  addPatient (IsPatient Patient.ctor_default).

(** [Polyclinic operator++(int)]; the local [t] is returned in place. *)
Definition op_postinc : M (t * heap) t :=
  this ← get_this;
  tmp ← on_heap (ctor_copy this);
  op_preinc;;
  mret tmp.

(** [Polyclinic& operator--()] *)
Definition op_predec : M (t * heap) unit := removeLastPatient.

(** [Polyclinic operator+(const Polyclinic& other) const]; the local
    [merged] is returned in place. *)
Definition op_plus (this other : t) : M heap t :=
  merged ← ctor_copy this;
  let merged := with_name merged (name this +:+ " + " +:+ name other) in
  let merged :=
    with_doctorsCount merged (int_add (doctorsCount this) (doctorsCount other)) in
  ps ← clone_all (patients other) (patients merged);
  mret (with_patients merged ps).

(** [bool operator==(const Polyclinic& other) const] *)
Definition op_eq (this other : t) : bool :=
  getPatientsCount this =? getPatientsCount other.

(** [bool operator!=(const Polyclinic& other) const] *)
Definition op_ne (this other : t) : bool := negb (op_eq this other).

(** The destructor of the vector: every [unique_ptr] in it is destroyed. *)
Fixpoint destroy_all (ps : list loc) : M heap unit :=
  match ps with
  | [] => mret ()
  | p :: rest => destroy p;; destroy_all rest
  end.

(** [~Polyclinic()] *)
Definition dtor (this : t) : M heap unit := destroy_all (patients this).

(** [Polyclinic operator--(int)]; when the decrement of the receiver throws, the local [t] is
    destroyed on the way out. *)
Definition op_postdec : M (t * heap) t :=
  this ← get_this;
  tmp ← on_heap (ctor_copy this);
  unwinding (on_heap (dtor tmp)) op_predec;;
  mret tmp.

Definition set_name (n : string) : M (t * heap) unit :=
  λ s, (Ret (), (with_name s.1 n, s.2)).

Definition set_doctorsCount (d : Z) : M (t * heap) unit :=
  λ s, (Ret (), (with_doctorsCount s.1 d, s.2)).

(** [Polyclinic& operator+=(const Polyclinic& other)], with [other] the state
    of the argument at the call.  This is the function for an argument that
    is a roster other than the receiver: with the receiver as argument the
    loop would walk the vector it appends to. *)
Definition op_plus_assign (other : t) : M (t * heap) unit :=
  this ← get_this;
  set_name (name this +:+ " + " +:+ name other);;
  this ← get_this;
  set_doctorsCount (int_add (doctorsCount this) (doctorsCount other));;
  this ← get_this;
  ps ← on_heap (clone_all (patients other) (patients this));
  set_patients ps.

(** [for (const auto& p : ps) p->printInfo();] with [out] the text printed so
    far. *)
Fixpoint print_each (ps : list loc) (out : string) : M heap string :=
  match ps with
  | [] => mret out
  | p :: rest =>
      o ← deref p;
      print_each rest (out +:+ printInfo o)
  end.

(** [void printAllPatients() const]: the text sent to [std::cout]. *)
Definition printAllPatients (this : t) : M heap string :=
  if decide (patients this = [])
  then mret ("  [пацієнтів немає]" +:+ newline)
  else print_each (patients this) "".

(** [for (const auto& p : ps) ofs << p->toLine() << newline;] *)
Fixpoint write_each (ps : list loc) (path : string)
    : M (heap * filesystem) unit :=
  match ps with
  | [] => mret ()
  | p :: rest =>
      o ← with_files (deref p);
      ofstream_put path (toLine o +:+ newline);;
      write_each rest path
  end.

(** [void saveToFile(const std::string& filepath) const] *)
Definition saveToFile (this : t) (filepath : string)
    : M (heap * filesystem) unit :=
  ofs ← ofstream_open filepath;
  if negb ofs
  then throw (FileSaveError ("Не вдається відкрити файл: " +:+ filepath))
  else write_each (patients this) filepath.

End Polyclinic.

(** ** class RoleAdmin *)

Module RoleAdmin.

(** Each member acts on the roster passed by reference. *)
Definition addDefaultPatient : M (Polyclinic.t * heap) unit :=
  Polyclinic.addPatient (IsPatient Patient.ctor_default).

Definition addChildPatient (name : string) (age : Z)
    (disease parentContact : string) : M (Polyclinic.t * heap) unit :=
  Polyclinic.addChild name age disease parentContact.

Definition addElderPatient (name : string) (age : Z)
    (disease allergies contraindications : string)
    : M (Polyclinic.t * heap) unit :=
  Polyclinic.addElder name age disease allergies contraindications.

Definition removeAt (index : nat) : M (Polyclinic.t * heap) unit :=
  Polyclinic.removePatientByIndex index.

End RoleAdmin.

(** ** Notions the statements use *)

(** The class of an object. *)
Inductive variant : Type := VPatient | VChild | VElder.

Definition variant_of (o : object) : variant :=
  match o with
  | IsPatient _ => VPatient
  | IsChild _ => VChild
  | IsElder _ => VElder
  end.

(** The roster owns its records: the addresses in its vector are pairwise
    distinct, and each holds a live object.  This is what
    [std::unique_ptr] maintains. *)
Definition owns (c : Polyclinic.t) (h : heap) : Prop :=
  NoDup (Polyclinic.patients c) ∧
  ∀ p, p ∈ Polyclinic.patients c → is_Some (h !! p).

(** The record at position [i]: what [getPatientPtr(i)] points to. *)
Definition recordAt (c : Polyclinic.t) (h : heap) (i : nat) : option object :=
  Polyclinic.getPatientPtr c i ≫= λ p, h !! p.

(** The serialized line as the format describes it: the tag of the variant,
    then name, age and disease, then the extra fields of the variant, with
    [|] between consecutive fields and nothing else added. *)
Definition variant_tag (o : object) : string :=
  match o with
  | IsPatient _ => "Patient"
  | IsChild _ => "Child"
  | IsElder _ => "Elder"
  end.

Definition extra_fields (o : object) : list string :=
  match o with
  | IsPatient _ => []
  | IsChild c => [ChildPatient.parentContact c]
  | IsElder e => [ElderPatient.allergies e; ElderPatient.contraindications e]
  end.

Fixpoint join (sep : string) (fields : list string) : string :=
  match fields with
  | [] => ""
  | [f] => f
  | f :: rest => f +:+ sep +:+ join sep rest
  end.

Definition line_format (o : object) : string :=
  join "|"
    (variant_tag o
       :: Patient.name (as_Patient o)
       :: to_string (Patient.age (as_Patient o))
       :: Patient.disease (as_Patient o)
       :: extra_fields o).

(** The records of a roster, in order. *)
Definition records (c : Polyclinic.t) (h : heap) : list object :=
  omap (λ p, h !! p) (Polyclinic.patients c).

(** The text of a file with one serialized record per line. *)
Definition lines_text (objs : list object) : string :=
  foldr (λ o rest, toLine o +:+ newline +:+ rest) "" objs.

(** The text of the records' descriptions, one after the other. *)
Definition infos_text (objs : list object) : string :=
  foldr (λ o rest, printInfo o +:+ rest) "" objs.

(** The field separator, as a character. *)
Definition bar : Ascii.ascii := Ascii.ascii_of_nat 124.

(** The text holds no field separator. *)
Fixpoint bar_free (s : string) : bool :=
  match s with
  | EmptyString => true
  | String c rest => negb (Ascii.eqb c bar) && bar_free rest
  end.

Definition fields_bar_free (o : object) : bool :=
  bar_free (Patient.name (as_Patient o))
  && bar_free (Patient.disease (as_Patient o))
  && forallb bar_free (extra_fields o).

(** What a client with the roster in hand can do to it: the actions of the
    administrator role and the operators that change the receiver. *)
Inductive call : Type :=
| CallAddPatient (o : object)
| CallAddDefaultPatient
| CallAddChildPatient (name : string) (age : Z) (disease parentContact : string)
| CallAddElderPatient (name : string) (age : Z)
    (disease allergies contraindications : string)
| CallRemoveLastPatient
| CallRemoveAt (index : nat)
| CallPreInc
| CallPreDec.

Definition run_call (c : call) : M (Polyclinic.t * heap) unit :=
  match c with
  | CallAddPatient o => Polyclinic.addPatient o
  | CallAddDefaultPatient => RoleAdmin.addDefaultPatient
  | CallAddChildPatient n a d pc => RoleAdmin.addChildPatient n a d pc
  | CallAddElderPatient n a d al ci => RoleAdmin.addElderPatient n a d al ci
  | CallRemoveLastPatient => Polyclinic.removeLastPatient
  | CallRemoveAt i => RoleAdmin.removeAt i
  | CallPreInc => Polyclinic.op_preinc
  | CallPreDec => Polyclinic.op_predec
  end.

(** A client that makes the calls one after the other and catches what they
    throw, as [main] does; [None] when a call runs into undefined
    behaviour. *)
Fixpoint run_calls (cs : list call) (s : Polyclinic.t * heap)
    : option (Polyclinic.t * heap) :=
  match cs with
  | [] => Some s
  | c :: rest =>
      match run_call c s with
      | (Undef, _) => None
      | (_, s') => run_calls rest s'
      end
  end.

(** [owns], as a test that can be run. *)
Definition ownsb (c : Polyclinic.t) (h : heap) : bool :=
  bool_decide (NoDup (Polyclinic.patients c))
  && forallb (λ p, bool_decide (is_Some (h !! p))) (Polyclinic.patients c).

(** ** The roster of [main] *)

(** [c1] after the three additions that open [main], on a heap that was
    empty. *)
Definition demo_run : outcome () * (Polyclinic.t * heap) :=
  (Polyclinic.addChild "Марта" 7 "Застуда" "Мама: +380501112233";;
   Polyclinic.addElder "Петро" 72 "Серцеве захворювання" "Пеніцилін"
     "Інтенсивні фізичні навантаження";;
   Polyclinic.addPatient (IsPatient (Patient.ctor "Олексій" 40 "Грип")))
    (Polyclinic.ctor "Міська поліклініка №1" "вул. Головна, 10" 25, ∅).

Definition demo_clinic : Polyclinic.t := demo_run.2.1.
Definition demo_heap : heap := demo_run.2.2.

(** A second roster, built on the heap the first one lives in. *)
Definition second_run : outcome () * (Polyclinic.t * heap) :=
  (Polyclinic.addChild "Олег" 12 "Травма" "Тато: +380631234567";;
   Polyclinic.addElder "Ірина" 67 "Діабет" "Немає" "Високовуглеводна дієта")
    (Polyclinic.ctor "Дитяча поліклініка" "вул. Садова, 3" 7, demo_heap).

Definition second_clinic : Polyclinic.t := second_run.2.1.
Definition shared_heap : heap := second_run.2.2.

(** The files of [main]: [patients.txt] can be written (and here holds
    something already), nothing under [nonexistent_dir] can. *)
Definition demo_files : filesystem :=
  {| can_open := λ path, bool_decide (path = "patients.txt");
     files := {[ "patients.txt" := "stale" ]} |}.

(** The calls [main] makes on [c1] through the administrator and the
    manager, with the removal that throws. *)
Definition main_calls : list call :=
  [ CallAddChildPatient "Олег" 12 "Травма" "Тато: +380631234567";
    CallAddElderPatient "Ірина" 67 "Діабет" "Немає" "Високовуглеводна дієта";
    CallRemoveAt 0;
    CallAddDefaultPatient;
    CallAddChildPatient "Андрій" 15 "Розтягнення зв'язок" "Мама: +380671112233";
    CallRemoveAt 999 ].

(** [empty] of [main]. *)
Definition empty_clinic : Polyclinic.t :=
  Polyclinic.ctor "Порожня поліклініка" "Невідома адреса" 0.

(** * Properties *)

(** One step of a member function: the binds are opened and the receiver is
    read. *)
Ltac run_member f :=
  unfold f, mbind, M_bind, Polyclinic.get_this; simpl.

(** ** Integers *)

Lemma wrap_int_id (z : Z) : in_int z → wrap_int z = z.
Proof.
  unfold in_int, INT_MIN, INT_MAX, wrap_int. intros Hz.
  rewrite Z.mod_small; lia.
Qed.

Lemma static_cast_int_small (n : nat) :
  Z.of_nat n ≤ INT_MAX → static_cast_int n = Z.of_nat n.
Proof.
  intros Hn. apply wrap_int_id. unfold in_int, INT_MIN, INT_MAX in *. lia.
Qed.

Example to_string_decimal :
  to_string 0 = "0" ∧ to_string 7 = "7" ∧ to_string 72 = "72" ∧
  to_string (-12) = "-12" ∧ to_string INT_MAX = "2147483647" ∧
  to_string INT_MIN = "-2147483648".
Proof. by split_and!. Qed.

(** ** Patient records *)

Lemma Patient_ctor_copy_id (p : Patient.t) : Patient.ctor_copy p = p.
Proof. by destruct p. Qed.

Lemma ChildPatient_ctor_copy_id (c : ChildPatient.t) : ChildPatient.ctor_copy c = c.
Proof.
  destruct c as [b pc]. unfold ChildPatient.ctor_copy. simpl.
  by rewrite Patient_ctor_copy_id.
Qed.

Lemma ElderPatient_ctor_copy_id (e : ElderPatient.t) : ElderPatient.ctor_copy e = e.
Proof.
  destruct e as [b a c]. unfold ElderPatient.ctor_copy. simpl.
  by rewrite Patient_ctor_copy_id.
Qed.

(** A clone is a new object of the same class with the same state. *)
Lemma clone_run (o : object) (h : heap) :
  clone o h = (Ret (fresh (dom h)), <[fresh (dom h) := o]> h).
Proof.
  destruct o; unfold clone, make_unique;
    by rewrite ?Patient_ctor_copy_id, ?ChildPatient_ctor_copy_id,
               ?ElderPatient_ctor_copy_id.
Qed.

Lemma fresh_dom_None (h : heap) : h !! fresh (dom h) = None.
Proof. apply not_elem_of_dom, is_fresh. Qed.

(** The copying loop: every source pointer is cloned into a new object, in
    order, behind what the destination held; no object that existed
    changes. *)
Lemma clone_all_run (src : list loc) :
  ∀ (dst : list loc) (h : heap),
    (∀ p, p ∈ src → is_Some (h !! p)) →
    ∃ (new : list loc) (h' : heap),
      Polyclinic.clone_all src dst h = (Ret (dst ++ new), h') ∧
      NoDup new ∧
      (∀ q, q ∈ new → h !! q = None) ∧
      (∀ l, l ∉ new → h' !! l = h !! l) ∧
      (λ q, h' !! q) <$> new = (λ p, h !! p) <$> src.
Proof.
  induction src as [|p rest IH]; intros dst h Hlive.
  - exists [], h. rewrite app_nil_r. split_and!; try done.
    + constructor.
    + by intros q ?%elem_of_nil.
  - destruct (Hlive p) as [o Ho]; [by left|].
    pose proof (fresh_dom_None h) as Hl.
    set (l := fresh (dom h)) in *.
    destruct (IH (dst ++ [l]) (<[l := o]> h))
      as (new & h' & Hrun & Hnd & Hnew & Hframe & Hobjs).
    { intros q Hq. destruct (Hlive q) as [oq Hoq]; [by right|].
      rewrite lookup_insert_ne; [by eexists|]. intros <-. congruence. }
    assert (l ∉ new) as Hlnew.
    { intros Hin. specialize (Hnew _ Hin). by rewrite lookup_insert_eq in Hnew. }
    exists (l :: new), h'. split_and!.
    + cbn [Polyclinic.clone_all]. unfold mbind, M_bind, deref. rewrite Ho.
      rewrite clone_run. fold l. rewrite Hrun. by rewrite <- app_assoc.
    + by constructor.
    + intros q [->|Hq]%elem_of_cons; [done|].
      specialize (Hnew _ Hq). destruct (decide (l = q)) as [->|Hne].
      * by rewrite lookup_insert_eq in Hnew.
      * by rewrite lookup_insert_ne in Hnew.
    + intros q Hq. apply not_elem_of_cons in Hq as [Hql Hq].
      rewrite Hframe by done. by rewrite lookup_insert_ne.
    + cbn [fmap list_fmap]. f_equal.
      * rewrite Hframe by done. by rewrite lookup_insert_eq.
      * rewrite Hobjs. apply list_fmap_ext. intros i q Hq.
        apply lookup_insert_ne. intros <-.
        destruct (Hlive l) as [? ?]; [right; by eapply list_elem_of_lookup_2|congruence].
Qed.

(** ** Reading a roster *)

Lemma recordAt_lookup (c : Polyclinic.t) (h : heap) (i : nat) :
  recordAt c h i = Polyclinic.patients c !! i ≫= λ p, h !! p.
Proof.
  unfold recordAt, Polyclinic.getPatientPtr.
  destruct (Nat.ltb_spec i (length (Polyclinic.patients c))) as [Hi|Hi]; [done|].
  by rewrite (lookup_ge_None_2 _ _ Hi).
Qed.

Lemma recordAt_ge (c : Polyclinic.t) (h : heap) (i : nat) :
  (length (Polyclinic.patients c) ≤ i)%nat → recordAt c h i = None.
Proof. intros Hi. rewrite recordAt_lookup. by rewrite (lookup_ge_None_2 _ _ Hi). Qed.

Lemma recordAt_lt (c : Polyclinic.t) (h : heap) (i : nat) :
  owns c h → (i < length (Polyclinic.patients c))%nat → is_Some (recordAt c h i).
Proof.
  intros [_ Hlive] Hi. rewrite recordAt_lookup.
  destruct (lookup_lt_is_Some_2 _ _ Hi) as [p Hp]. rewrite Hp. simpl.
  apply Hlive. by eapply list_elem_of_lookup_2.
Qed.

(** Two vectors whose pointers lead, position by position, to equal objects
    hold the same records. *)
Lemma recordAt_ext (c c' : Polyclinic.t) (h h' : heap) :
  (λ q, h' !! q) <$> Polyclinic.patients c' = (λ p, h !! p) <$> Polyclinic.patients c →
  ∀ i, recordAt c' h' i = recordAt c h i.
Proof.
  intros Heq i. rewrite !recordAt_lookup.
  apply (f_equal (λ l, l !! i)) in Heq. rewrite !list_lookup_fmap in Heq.
  destruct (Polyclinic.patients c' !! i), (Polyclinic.patients c !! i);
    simpl in *; congruence.
Qed.

(** ** The copy constructor *)

Lemma ctor_copy_run (R : Polyclinic.t) (h : heap) :
  (∀ p, p ∈ Polyclinic.patients R → is_Some (h !! p)) →
  ∃ (C : Polyclinic.t) (h' : heap),
    Polyclinic.ctor_copy R h = (Ret C, h') ∧
    Polyclinic.name C = Polyclinic.name R ∧
    Polyclinic.address C = Polyclinic.address R ∧
    Polyclinic.doctorsCount C = Polyclinic.doctorsCount R ∧
    NoDup (Polyclinic.patients C) ∧
    (∀ q, q ∈ Polyclinic.patients C → h !! q = None) ∧
    (∀ l, l ∉ Polyclinic.patients C → h' !! l = h !! l) ∧
    (λ q, h' !! q) <$> Polyclinic.patients C
      = (λ p, h !! p) <$> Polyclinic.patients R.
Proof.
  intros Hlive.
  destruct (clone_all_run (Polyclinic.patients R) [] h Hlive)
    as (new & h' & Hrun & Hnd & Hnew & Hframe & Hobjs).
  eexists _, h'. split.
  - unfold Polyclinic.ctor_copy, mbind, M_bind. rewrite Hrun. reflexivity.
  - by split_and!.
Qed.

(** An object that was alive is not among newly made ones. *)
Lemma live_not_new (h : heap) (new : list loc) (l : loc) :
  (∀ q, q ∈ new → h !! q = None) → is_Some (h !! l) → l ∉ new.
Proof. intros Hnew [o Ho] Hin. specialize (Hnew _ Hin). congruence. Qed.

(** C1: copy-constructing a roster [R] returns a roster with the same name,
    address and doctor count and as many records; at every index the copy's
    record is an object of the same class as [R]'s record there, with the
    same fields, so that [printInfo] and [toLine] give the same text.  The
    records of the copy are new objects, and no object of [R] changes. *)
Theorem copy_constructor_deep_copy (R : Polyclinic.t) (h : heap) :
  owns R h →
  ∃ (C : Polyclinic.t) (h' : heap),
    Polyclinic.ctor_copy R h = (Ret C, h') ∧
    Polyclinic.name C = Polyclinic.name R ∧
    Polyclinic.address C = Polyclinic.address R ∧
    Polyclinic.doctorsCount C = Polyclinic.doctorsCount R ∧
    length (Polyclinic.patients C) = length (Polyclinic.patients R) ∧
    Polyclinic.getPatientsCount C = Polyclinic.getPatientsCount R ∧
    (∀ i o, recordAt R h i = Some o →
       ∃ o', recordAt C h' i = Some o' ∧
             variant_of o' = variant_of o ∧ o' = o ∧
             printInfo o' = printInfo o ∧ toLine o' = toLine o) ∧
    (∀ i, recordAt R h i = None → recordAt C h' i = None) ∧
    owns C h' ∧
    (∀ q, q ∈ Polyclinic.patients C → h !! q = None) ∧
    (∀ p, p ∈ Polyclinic.patients R → h' !! p = h !! p).
Proof.
  intros [HndR Hlive].
  destruct (ctor_copy_run R h Hlive)
    as (C & h' & Hrun & Hname & Haddr & Hdoc & Hnd & Hnew & Hframe & Hobjs).
  pose proof (recordAt_ext R C h h' Hobjs) as Hrec.
  assert (length (Polyclinic.patients C) = length (Polyclinic.patients R)) as Hlen.
  { apply (f_equal length) in Hobjs. by rewrite !length_fmap in Hobjs. }
  assert (owns C h') as Hown.
  { split; [done|]. intros q [i Hi]%list_elem_of_lookup.
    pose proof (Hrec i) as Hri. rewrite !recordAt_lookup, Hi in Hri. simpl in Hri.
    rewrite Hri.
    destruct (lookup_lt_is_Some_2 (Polyclinic.patients R) i) as [p Hp].
    { rewrite <- Hlen. by eapply lookup_lt_Some. }
    rewrite Hp. simpl. apply Hlive. by eapply list_elem_of_lookup_2. }
  exists C, h'. repeat (split; [done|]). split; [|split; [|split]].
  - unfold Polyclinic.getPatientsCount. by rewrite Hlen.
  - intros i o Ho. exists o. by rewrite Hrec.
  - intros i Hi. by rewrite Hrec.
  - repeat (split; [done|]).
    intros p Hp. apply Hframe. by eapply live_not_new; [|apply Hlive].
Qed.

Lemma ownsb_owns (c : Polyclinic.t) (h : heap) : ownsb c h = true → owns c h.
Proof.
  unfold ownsb, owns. intros [Hnd Hall]%andb_prop. split.
  - by apply bool_decide_eq_true in Hnd.
  - intros p Hp. rewrite forallb_forall in Hall.
    apply list_elem_of_In in Hp. apply Hall in Hp.
    by apply bool_decide_eq_true in Hp.
Qed.

(** The witness of C1: the roster of [main] is copied. *)
Lemma copy_constructor_deep_copy_witness :
  owns demo_clinic demo_heap ∧
  ∃ (C : Polyclinic.t) (h' : heap),
    Polyclinic.ctor_copy demo_clinic demo_heap = (Ret C, h') ∧
    length (Polyclinic.patients C) = 3%nat ∧
    recordAt C h' 0
      = Some (IsChild (ChildPatient.ctor "Марта" 7 "Застуда" "Мама: +380501112233")).
Proof.
  assert (owns demo_clinic demo_heap) as Hown.
  { apply ownsb_owns. vm_compute. reflexivity. }
  split; [exact Hown|].
  destruct (copy_constructor_deep_copy demo_clinic demo_heap Hown)
    as (C & h' & Hrun & _ & _ & _ & Hlen & _ & Hrec & _).
  exists C, h'. split; [exact Hrun|]. split; [exact Hlen|].
  destruct (Hrec 0%nat
              (IsChild (ChildPatient.ctor "Марта" 7 "Застуда" "Мама: +380501112233")))
    as (o' & Ho' & _ & -> & _); [vm_compute; reflexivity|exact Ho'].
Defined.

(** ** Patient records: defaults, serialization, equality *)

(** C2 as the specification words it does not hold: the strings of a
    default-constructed patient are not the English words. *)
Lemma default_patient_not_english :
  ¬ (Patient.name Patient.ctor_default = "Unknown" ∧
     Patient.age Patient.ctor_default = 0 ∧
     Patient.disease Patient.ctor_default = "None").
Proof. intros (Hname & _ & _). discriminate Hname. Qed.

(** C2, amended: a patient constructed with no arguments has the name
    "Невідомо" (Ukrainian for "unknown"), age 0 and the disease "Немає"
    ("none"); both strings are stored as written in the source, in UTF-8. *)
Theorem default_patient_fields :
  Patient.name Patient.ctor_default = "Невідомо" ∧
  Patient.age Patient.ctor_default = 0 ∧
  Patient.disease Patient.ctor_default = "Немає" ∧
  as_Patient (IsPatient Patient.ctor_default)
    = Patient.ctor "Невідомо" 0 "Немає".
Proof. by split_and!. Qed.

(** C3: the child patient Marta serializes to
    [Child|Marta|7|Cold|+380501112233], and for every object of the three
    classes the line is the tag of its class, its name, its age in decimal and
    its disease, then the extra fields of the class, joined by [|] with the
    field texts taken as they are (a [|] inside a field is not escaped). *)
Theorem toLine_format :
  toLine (IsChild (ChildPatient.ctor "Marta" 7 "Cold" "+380501112233"))
    = "Child|Marta|7|Cold|+380501112233" ∧
  (∀ o : object, toLine o = line_format o) ∧
  toLine (IsElder (ElderPatient.ctor "a|b" (-3) "c" "d|" "|e"))
    = "Elder|a|b|-3|c|d|||e".
Proof.
  split; [reflexivity|]. split; [|reflexivity].
  intros [p|c|e]; reflexivity.
Qed.

(** C9: two patient records of any classes compare equal exactly when their
    names are equal and their ages are equal; nothing else is looked at. *)
Theorem patient_equality_name_age (x y : object) :
  op_eq x y = true ↔
    Patient.name (as_Patient x) = Patient.name (as_Patient y) ∧
    Patient.age (as_Patient x) = Patient.age (as_Patient y).
Proof.
  unfold op_eq, Patient.op_eq.
  by rewrite andb_true_iff, String.eqb_eq, Z.eqb_eq.
Qed.

(** A child and an elder with the same name and age are equal records, though
    class, disease and extra fields differ. *)
Example patient_equality_across_classes :
  op_eq (IsChild (ChildPatient.ctor "Ірина" 67 "Травма" "Тато"))
        (IsElder (ElderPatient.ctor "Ірина" 67 "Діабет" "Немає" "Дієта")) = true.
Proof. reflexivity. Qed.

(** ** Roster equality *)

(** C7: two rosters compare equal exactly when their patient counts are
    equal.  Names, addresses, doctor counts and the records themselves play no
    role: the result is the same for any two rosters with as many records as
    the given ones.  Where both sizes fit [int], the counts are the vector
    sizes. *)
Theorem roster_equality_by_count (A B : Polyclinic.t) :
  (Polyclinic.op_eq A B = true ↔
     Polyclinic.getPatientsCount A = Polyclinic.getPatientsCount B) ∧
  (∀ A' B' : Polyclinic.t,
     length (Polyclinic.patients A') = length (Polyclinic.patients A) →
     length (Polyclinic.patients B') = length (Polyclinic.patients B) →
     Polyclinic.op_eq A' B' = Polyclinic.op_eq A B) ∧
  (Z.of_nat (length (Polyclinic.patients A)) ≤ INT_MAX →
   Z.of_nat (length (Polyclinic.patients B)) ≤ INT_MAX →
   (Polyclinic.op_eq A B = true ↔
      length (Polyclinic.patients A) = length (Polyclinic.patients B))).
Proof.
  unfold Polyclinic.op_eq, Polyclinic.getPatientsCount. split_and!.
  - apply Z.eqb_eq.
  - intros A' B' -> ->. reflexivity.
  - intros HA HB. rewrite Z.eqb_eq, !static_cast_int_small by done. lia.
Qed.

(** The witness of C7: the roster of [main] against the empty one. *)
Lemma roster_equality_by_count_witness :
  Z.of_nat (length (Polyclinic.patients demo_clinic)) ≤ INT_MAX ∧
  Z.of_nat (length (Polyclinic.patients empty_clinic)) ≤ INT_MAX ∧
  (Polyclinic.op_eq demo_clinic empty_clinic = true ↔
     length (Polyclinic.patients demo_clinic)
       = length (Polyclinic.patients empty_clinic)).
Proof.
  split; [vm_compute; discriminate|]. split; [vm_compute; discriminate|].
  apply (proj2 (proj2 (roster_equality_by_count demo_clinic empty_clinic)));
    vm_compute; discriminate.
Defined.

(** ** Removing records *)

(** Taking the pointer at position [i] out of an owned vector and deleting
    its object leaves an owned vector, and every pointer that stays still
    leads to the object it led to. *)
Lemma delete_owned (l : list loc) (h : heap) (i : nat) (p : loc) :
  NoDup l → (∀ q, q ∈ l → is_Some (h !! q)) → l !! i = Some p →
  NoDup (delete i l) ∧
  (∀ q, q ∈ delete i l → delete p h !! q = h !! q ∧ is_Some (h !! q)).
Proof.
  intros Hnd Hlive Hi. split.
  - eapply sublist_NoDup; [done|apply sublist_delete].
  - intros q Hq.
    assert (q ∈ l) as Hql.
    { eapply elem_of_sublist; [|apply sublist_delete]. done. }
    split; [|by apply Hlive].
    apply lookup_delete_ne. intros ->.
    rewrite delete_take_drop in Hq.
    rewrite <- (take_drop_middle l i q Hi) in Hnd.
    apply NoDup_app in Hnd as (_ & Hdisj & Hnd2).
    apply NoDup_cons in Hnd2 as [Hnotin _].
    apply elem_of_app in Hq as [Hq|Hq]; [|done].
    apply (Hdisj _ Hq). by left.
Qed.

(** What [erase] does to a roster that owns its records. *)
Lemma erase_run (R : Polyclinic.t) (h : heap) (i : nat) (p : loc) :
  owns R h → Polyclinic.patients R !! i = Some p →
  ∃ R' : Polyclinic.t,
    Polyclinic.erase i (R, h) = (Ret (), (R', delete p h)) ∧
    Polyclinic.name R' = Polyclinic.name R ∧
    Polyclinic.address R' = Polyclinic.address R ∧
    Polyclinic.doctorsCount R' = Polyclinic.doctorsCount R ∧
    Polyclinic.patients R' = delete i (Polyclinic.patients R) ∧
    (∀ j, (j < i)%nat → recordAt R' (delete p h) j = recordAt R h j) ∧
    (∀ j, (i ≤ j)%nat → recordAt R' (delete p h) j = recordAt R h (S j)) ∧
    owns R' (delete p h).
Proof.
  intros [Hnd Hlive] Hi.
  destruct (delete_owned _ h i p Hnd Hlive Hi) as [Hnd' Hkept].
  destruct (Hlive p) as [o Ho]; [by eapply list_elem_of_lookup_2|].
  eexists. split.
  { run_member Polyclinic.erase.
    rewrite Hi. unfold Polyclinic.on_heap, destroy. simpl. rewrite Ho.
    reflexivity. }
  simpl. repeat (split; [done|]).
  assert (∀ j k, delete i (Polyclinic.patients R) !! j = Polyclinic.patients R !! k →
            delete i (Polyclinic.patients R) !! j ≫= (λ q, delete p h !! q)
            = Polyclinic.patients R !! k ≫= (λ q, h !! q)) as Hsame.
  { intros j k Hjk. rewrite <- Hjk.
    destruct (delete i (Polyclinic.patients R) !! j) as [q|] eqn:Hq; [|done].
    simpl. apply Hkept. by eapply list_elem_of_lookup_2. }
  split_and!.
  - intros j Hj. rewrite !recordAt_lookup. simpl.
    apply Hsame. by apply list_lookup_delete_lt.
  - intros j Hj. rewrite !recordAt_lookup. simpl.
    apply Hsame. by apply list_lookup_delete_ge.
  - split; [done|]. intros q Hq. simpl in Hq.
    destruct (Hkept q Hq) as [-> ?]. done.
Qed.

(** C4: on a roster without records [removeLastPatient] throws
    [EmptyClinicError] and roster and heap stay as they were, the count still
    0; on a roster with records it returns, the last pointer leaves the vector
    and its object is deleted, the records before it stay what they were at
    their positions, and the scalar fields stay. *)
Theorem removeLastPatient_spec (R : Polyclinic.t) (h : heap) :
  (length (Polyclinic.patients R) = 0%nat →
     Polyclinic.removeLastPatient (R, h)
       = (Throw (EmptyClinicError "Немає пацієнтів для видалення"), (R, h)) ∧
     Polyclinic.getPatientsCount R = 0) ∧
  ((0 < length (Polyclinic.patients R))%nat → owns R h →
     ∃ (R' : Polyclinic.t) (h' : heap) (p : loc),
       Polyclinic.removeLastPatient (R, h) = (Ret (), (R', h')) ∧
       Polyclinic.name R' = Polyclinic.name R ∧
       Polyclinic.address R' = Polyclinic.address R ∧
       Polyclinic.doctorsCount R' = Polyclinic.doctorsCount R ∧
       Polyclinic.patients R = Polyclinic.patients R' ++ [p] ∧
       h' = delete p h ∧
       (∀ i, (i < length (Polyclinic.patients R'))%nat →
          recordAt R' h' i = recordAt R h i) ∧
       recordAt R' h' (length (Polyclinic.patients R')) = None ∧
       owns R' h').
Proof.
  split.
  - intros Hlen. apply nil_length_inv in Hlen.
    unfold Polyclinic.removeLastPatient, Polyclinic.getPatientsCount,
      mbind, M_bind, Polyclinic.get_this.
    simpl. rewrite Hlen. split; reflexivity.
  - intros Hlen Hown.
    destruct (Polyclinic.patients R) as [|x l0] eqn:Hps using rev_ind;
      [simpl in Hlen; lia|].
    clear IHl0 Hlen. rename l0 into ps. rename x into p.
    assert (Polyclinic.patients R !! length ps = Some p) as Hi.
    { rewrite Hps. by rewrite list_lookup_middle. }
    destruct (erase_run R h (length ps) p Hown Hi)
      as (R' & Hrun & Hname & Haddr & Hdoc & Hpat & Hlt & _ & Hown').
    assert (Polyclinic.patients R' = ps) as Hps'.
    { rewrite Hpat, Hps. by rewrite (delete_middle ps [] p), app_nil_r. }
    exists R', (delete p h), p. split.
    { run_member Polyclinic.removeLastPatient. rewrite Hps.
      destruct (decide (ps ++ [p] = [])) as [Hnil|_].
      { by destruct ps. }
      run_member Polyclinic.pop_back.
      rewrite Hps, last_snoc, removelast_last.
      unfold Polyclinic.erase, mbind, M_bind, Polyclinic.get_this in Hrun.
      simpl in Hrun. rewrite Hi in Hrun. rewrite Hps in Hrun.
      rewrite (delete_middle ps [] p), app_nil_r in Hrun. exact Hrun. }
    rewrite Hps'. split_and!; try done.
    apply recordAt_ge. by rewrite Hps'.
Qed.

(** The witness of C4: [--empty] of [main], and the roster of [main] losing
    its third record. *)
Lemma removeLastPatient_spec_witness :
  (length (Polyclinic.patients empty_clinic) = 0%nat ∧
   Polyclinic.removeLastPatient (empty_clinic, ∅)
     = (Throw (EmptyClinicError "Немає пацієнтів для видалення"),
        (empty_clinic, ∅))) ∧
  ((0 < length (Polyclinic.patients demo_clinic))%nat ∧
   owns demo_clinic demo_heap ∧
   ∃ (R' : Polyclinic.t) (h' : heap),
     Polyclinic.removeLastPatient (demo_clinic, demo_heap) = (Ret (), (R', h')) ∧
     Polyclinic.patients demo_clinic = Polyclinic.patients R' ++ [3%positive]).
Proof.
  split.
  - split; [reflexivity|].
    apply (proj1 (removeLastPatient_spec empty_clinic ∅)). reflexivity.
  - assert (0 < length (Polyclinic.patients demo_clinic))%nat as Hlen.
    { vm_compute. lia. }
    assert (owns demo_clinic demo_heap) as Hown.
    { apply ownsb_owns. vm_compute. reflexivity. }
    split; [exact Hlen|]. split; [exact Hown|].
    destruct (proj2 (removeLastPatient_spec demo_clinic demo_heap) Hlen Hown)
      as (R' & h' & p & Hrun & _ & _ & _ & Hps & _).
    exists R', h'. split; [exact Hrun|].
    assert (p = 3%positive) as <-; [|exact Hps].
    apply (f_equal last) in Hps. rewrite last_snoc in Hps.
    vm_compute in Hps. congruence.
Defined.

(** C5: [removePatientByIndex(index)] with [index] at or beyond the size
    throws [PatientIndexError] and roster and heap stay as they were; with
    [index] below the size it returns, the pointer at [index] leaves the
    vector and its object is deleted, the records before [index] stay at
    their positions, every later record moves down by one, and the scalar
    fields stay. *)
Theorem removePatientByIndex_spec (R : Polyclinic.t) (h : heap) (index : nat) :
  ((length (Polyclinic.patients R) ≤ index)%nat →
     Polyclinic.removePatientByIndex index (R, h)
       = (Throw (PatientIndexError "Індекс за межами діапазону"), (R, h))) ∧
  ((index < length (Polyclinic.patients R))%nat → owns R h →
     ∃ (R' : Polyclinic.t) (h' : heap) (p : loc),
       Polyclinic.removePatientByIndex index (R, h) = (Ret (), (R', h')) ∧
       Polyclinic.name R' = Polyclinic.name R ∧
       Polyclinic.address R' = Polyclinic.address R ∧
       Polyclinic.doctorsCount R' = Polyclinic.doctorsCount R ∧
       Polyclinic.patients R !! index = Some p ∧
       Polyclinic.patients R' = delete index (Polyclinic.patients R) ∧
       S (length (Polyclinic.patients R')) = length (Polyclinic.patients R) ∧
       h' = delete p h ∧
       (∀ j, (j < index)%nat → recordAt R' h' j = recordAt R h j) ∧
       (∀ j, (index ≤ j)%nat → recordAt R' h' j = recordAt R h (S j)) ∧
       owns R' h').
Proof.
  split.
  - intros Hge.
    run_member Polyclinic.removePatientByIndex.
    by rewrite (proj2 (Nat.leb_le _ _) Hge).
  - intros Hlt Hown.
    destruct (lookup_lt_is_Some_2 _ _ Hlt) as [p Hp].
    destruct (erase_run R h index p Hown Hp)
      as (R' & Hrun & Hname & Haddr & Hdoc & Hpat & Hbefore & Hafter & Hown').
    exists R', (delete p h), p. split.
    { run_member Polyclinic.removePatientByIndex.
      by rewrite (proj2 (Nat.leb_gt _ _) Hlt). }
    split_and!; try done.
    rewrite Hpat, length_delete by (by eexists). lia.
Qed.

(** The witness of C5: [removeAt(c1, 999)] and [removeAt(c1, 0)] of [main]. *)
Lemma removePatientByIndex_spec_witness :
  ((length (Polyclinic.patients demo_clinic) ≤ 999)%nat ∧
   Polyclinic.removePatientByIndex 999 (demo_clinic, demo_heap)
     = (Throw (PatientIndexError "Індекс за межами діапазону"),
        (demo_clinic, demo_heap))) ∧
  ((0 < length (Polyclinic.patients demo_clinic))%nat ∧
   owns demo_clinic demo_heap ∧
   ∃ (R' : Polyclinic.t) (h' : heap),
     Polyclinic.removePatientByIndex 0 (demo_clinic, demo_heap)
       = (Ret (), (R', h')) ∧
     Polyclinic.patients R' = [2; 3]%positive).
Proof.
  split.
  - assert (length (Polyclinic.patients demo_clinic) ≤ 999)%nat as Hge.
    { vm_compute. lia. }
    split; [exact Hge|].
    exact (proj1 (removePatientByIndex_spec demo_clinic demo_heap 999) Hge).
  - assert (0 < length (Polyclinic.patients demo_clinic))%nat as Hlt.
    { vm_compute. lia. }
    assert (owns demo_clinic demo_heap) as Hown.
    { apply ownsb_owns. vm_compute. reflexivity. }
    split; [exact Hlt|]. split; [exact Hown|].
    destruct (proj2 (removePatientByIndex_spec demo_clinic demo_heap 0) Hlt Hown)
      as (R' & h' & p & Hrun & _ & _ & _ & _ & Hps & _).
    exists R', h'. split; [exact Hrun|]. rewrite Hps. reflexivity.
Defined.

(** ** Adding records, increment and merge *)

Lemma lookup_objects_ext (l l' : list loc) (h h' : heap) :
  (λ q, h' !! q) <$> l' = (λ p, h !! p) <$> l →
  ∀ i, l' !! i ≫= (λ q, h' !! q) = l !! i ≫= (λ p, h !! p).
Proof.
  intros Heq i.
  apply (f_equal (λ k, k !! i)) in Heq. rewrite !list_lookup_fmap in Heq.
  destruct (l' !! i), (l !! i); simpl in *; congruence.
Qed.

(** Pointers that lead to the objects of live sources are live. *)
Lemma objects_live (l l' : list loc) (h h' : heap) :
  (λ q, h' !! q) <$> l' = (λ p, h !! p) <$> l →
  (∀ p, p ∈ l → is_Some (h !! p)) →
  ∀ q, q ∈ l' → is_Some (h' !! q).
Proof.
  intros Heq Hlive q [i Hi]%list_elem_of_lookup.
  pose proof (lookup_objects_ext l l' h h' Heq i) as Hobj.
  rewrite Hi in Hobj. simpl in Hobj. rewrite Hobj.
  destruct (l !! i) as [p|] eqn:Hp.
  - simpl. apply Hlive. by eapply list_elem_of_lookup_2.
  - apply (f_equal length) in Heq. rewrite !length_fmap in Heq.
    apply lookup_lt_Some in Hi. apply lookup_ge_None in Hp. lia.
Qed.

Lemma addPatient_run (R : Polyclinic.t) (h : heap) (o : object) :
  Polyclinic.addPatient o (R, h)
  = (Ret (),
     ({| Polyclinic.name := Polyclinic.name R;
         Polyclinic.address := Polyclinic.address R;
         Polyclinic.doctorsCount := Polyclinic.doctorsCount R;
         Polyclinic.patients := Polyclinic.patients R ++ [fresh (dom h)] |},
      <[fresh (dom h) := o]> h)).
Proof.
  unfold Polyclinic.addPatient, mbind, M_bind, Polyclinic.on_heap. simpl.
  by rewrite clone_run.
Qed.

(** C8: [operator++(int)] on a roster [R] returns a roster [T] with the
    scalar fields of [R] and, index by index, the records [R] had before the
    call, held in objects of its own that [R] does not point to; [R] itself
    keeps its scalar fields and its records and has one more record at the
    end, a default-constructed [Patient], so its size grows by exactly
    one. *)
Theorem op_postinc_spec (R : Polyclinic.t) (h : heap) :
  owns R h →
  ∃ (T R' : Polyclinic.t) (h' : heap) (q : loc),
    Polyclinic.op_postinc (R, h) = (Ret T, (R', h')) ∧
    (Polyclinic.name T = Polyclinic.name R ∧
     Polyclinic.address T = Polyclinic.address R ∧
     Polyclinic.doctorsCount T = Polyclinic.doctorsCount R) ∧
    length (Polyclinic.patients T) = length (Polyclinic.patients R) ∧
    (∀ i, recordAt T h' i = recordAt R h i) ∧
    (Polyclinic.name R' = Polyclinic.name R ∧
     Polyclinic.address R' = Polyclinic.address R ∧
     Polyclinic.doctorsCount R' = Polyclinic.doctorsCount R) ∧
    Polyclinic.patients R' = Polyclinic.patients R ++ [q] ∧
    length (Polyclinic.patients R') = S (length (Polyclinic.patients R)) ∧
    (∀ i, (i < length (Polyclinic.patients R))%nat →
       recordAt R' h' i = recordAt R h i) ∧
    recordAt R' h' (length (Polyclinic.patients R))
      = Some (IsPatient Patient.ctor_default) ∧
    (Z.of_nat (length (Polyclinic.patients R)) < INT_MAX →
       Polyclinic.getPatientsCount R' = Polyclinic.getPatientsCount R + 1) ∧
    owns T h' ∧ owns R' h' ∧
    (∀ p, p ∈ Polyclinic.patients T → p ∉ Polyclinic.patients R').
Proof.
  intros [HndR Hlive].
  destruct (ctor_copy_run R h Hlive)
    as (T & h1 & Hrun & Hname & Haddr & Hdoc & HndT & Hnew & Hframe & Hobjs).
  pose proof (objects_live _ _ _ _ Hobjs Hlive) as HliveT.
  pose proof (fresh_dom_None h1) as Hq. set (q := fresh (dom h1)) in *.
  assert (∀ p, p ∈ Polyclinic.patients R → h1 !! p = h !! p) as HkeptR.
  { intros p Hp. apply Hframe. by eapply live_not_new; [|apply Hlive]. }
  assert (q ∉ Polyclinic.patients R) as HqR.
  { intros Hin. destruct (Hlive _ Hin) as [o Ho].
    rewrite <- (HkeptR _ Hin) in Ho. congruence. }
  assert (q ∉ Polyclinic.patients T) as HqT.
  { intros Hin. destruct (HliveT _ Hin) as [o Ho]. congruence. }
  set (R' := {| Polyclinic.name := Polyclinic.name R;
                Polyclinic.address := Polyclinic.address R;
                Polyclinic.doctorsCount := Polyclinic.doctorsCount R;
                Polyclinic.patients := Polyclinic.patients R ++ [q] |}).
  set (h' := <[q := IsPatient Patient.ctor_default]> h1).
  assert (∀ p, p ≠ q → h' !! p = h1 !! p) as Hh'.
  { intros p Hp. by apply lookup_insert_ne. }
  exists T, R', h', q.
  split.
  { unfold Polyclinic.op_postinc, mbind, M_bind, Polyclinic.get_this,
      Polyclinic.on_heap, Polyclinic.op_preinc. simpl.
    rewrite Hrun. reflexivity. }
  split; [done|]. split.
  { apply (f_equal length) in Hobjs. by rewrite !length_fmap in Hobjs. }
  split.
  { apply recordAt_ext. rewrite <- Hobjs. apply list_fmap_ext.
    intros i p Hp. apply Hh'. intros ->. apply HqT.
    by eapply list_elem_of_lookup_2. }
  split; [done|]. split; [done|]. split.
  { simpl. rewrite length_app. simpl. lia. }
  split.
  { intros i Hi. rewrite !recordAt_lookup. simpl.
    rewrite lookup_app_l by done.
    destruct (Polyclinic.patients R !! i) as [p|] eqn:Hp; [|done]. simpl.
    assert (p ∈ Polyclinic.patients R) as Hin by (by eapply list_elem_of_lookup_2).
    rewrite Hh' by (by intros ->). by apply HkeptR. }
  split.
  { rewrite recordAt_lookup. simpl. rewrite list_lookup_middle by done.
    simpl. apply lookup_insert_eq. }
  split.
  { intros Hfit. unfold Polyclinic.getPatientsCount. simpl.
    rewrite length_app. simpl.
    rewrite !static_cast_int_small by (unfold INT_MAX in *; lia). lia. }
  split.
  { split; [done|]. intros p Hp. rewrite Hh' by (by intros ->). by apply HliveT. }
  split.
  { split.
    - simpl. apply NoDup_app. split; [done|]. split; [|apply NoDup_singleton].
      intros p Hp ->%list_elem_of_singleton. done.
    - simpl. intros p [Hp| ->%list_elem_of_singleton]%elem_of_app.
      + rewrite Hh' by (by intros ->). rewrite HkeptR by done. by apply Hlive.
      + unfold h'. rewrite lookup_insert_eq. by eexists. }
  simpl. intros p Hp [HpR| ->%list_elem_of_singleton]%elem_of_app; [|done].
  destruct (Hlive _ HpR) as [o Ho]. rewrite (Hnew _ Hp) in Ho. done.
Qed.

(** The witness of C8: [c1++] on the roster of [main]. *)
Lemma op_postinc_spec_witness :
  owns demo_clinic demo_heap ∧
  ∃ (T R' : Polyclinic.t) (h' : heap),
    Polyclinic.op_postinc (demo_clinic, demo_heap) = (Ret T, (R', h')) ∧
    length (Polyclinic.patients T) = 3%nat ∧
    length (Polyclinic.patients R') = 4%nat ∧
    recordAt R' h' 3 = Some (IsPatient Patient.ctor_default).
Proof.
  assert (owns demo_clinic demo_heap) as Hown.
  { apply ownsb_owns. vm_compute. reflexivity. }
  split; [exact Hown|].
  destruct (op_postinc_spec demo_clinic demo_heap Hown)
    as (T & R' & h' & q & Hrun & _ & HlenT & _ & _ & _ & HlenR' & _ & Hlast & _).
  exists T, R', h'. split; [exact Hrun|].
  split; [exact HlenT|]. split; [exact HlenR'|exact Hlast].
Defined.

(** What [operator+] does on two rosters that own their records; they need
    not be different rosters. *)
Lemma op_plus_run (A B : Polyclinic.t) (h : heap) :
  (∀ p, p ∈ Polyclinic.patients A → is_Some (h !! p)) →
  (∀ p, p ∈ Polyclinic.patients B → is_Some (h !! p)) →
  ∃ (m : Polyclinic.t) (h' : heap),
    Polyclinic.op_plus A B h = (Ret m, h') ∧
    Polyclinic.name m = Polyclinic.name A +:+ " + " +:+ Polyclinic.name B ∧
    Polyclinic.address m = Polyclinic.address A ∧
    Polyclinic.doctorsCount m
      = int_add (Polyclinic.doctorsCount A) (Polyclinic.doctorsCount B) ∧
    NoDup (Polyclinic.patients m) ∧
    (∀ q, q ∈ Polyclinic.patients m → h !! q = None) ∧
    (∀ l, l ∉ Polyclinic.patients m → h' !! l = h !! l) ∧
    (λ q, h' !! q) <$> Polyclinic.patients m
      = (λ p, h !! p) <$> (Polyclinic.patients A ++ Polyclinic.patients B).
Proof.
  intros HliveA HliveB.
  destruct (ctor_copy_run A h HliveA)
    as (C & h1 & HrunC & _ & Haddr & _ & Hnd1 & Hnew1 & Hframe1 & Hobjs1).
  pose proof (objects_live _ _ _ _ Hobjs1 HliveA) as HliveC.
  assert (∀ p, p ∈ Polyclinic.patients B → h1 !! p = h !! p) as HkeptB.
  { intros p Hp. apply Hframe1. by eapply live_not_new; [|apply HliveB]. }
  destruct (clone_all_run (Polyclinic.patients B) (Polyclinic.patients C) h1)
    as (new2 & h2 & Hrun2 & Hnd2 & Hnew2 & Hframe2 & Hobjs2).
  { intros p Hp. rewrite HkeptB by done. by apply HliveB. }
  assert (∀ q, q ∈ Polyclinic.patients C → q ∉ new2) as Hdisj.
  { intros q Hq Hq2. destruct (HliveC _ Hq) as [o Ho].
    rewrite (Hnew2 _ Hq2) in Ho. done. }
  eexists _, h2. split.
  { unfold Polyclinic.op_plus, mbind, M_bind. rewrite HrunC.
    cbn [Polyclinic.with_name Polyclinic.with_doctorsCount Polyclinic.patients].
    rewrite Hrun2. reflexivity. }
  simpl. split_and!; try done.
  - by apply NoDup_app.
  - intros q [Hq|Hq]%elem_of_app; [by apply Hnew1|].
    specialize (Hnew2 _ Hq). destruct (decide (q ∈ Polyclinic.patients C)) as [Hin|Hnin].
    + destruct (HliveC _ Hin) as [o Ho]. congruence.
    + by rewrite <- (Hframe1 _ Hnin).
  - intros l [Hl1 Hl2]%not_elem_of_app.
    by rewrite Hframe2, Hframe1.
  - rewrite !fmap_app. f_equal.
    + rewrite <- Hobjs1. apply list_fmap_ext. intros i q Hq.
      apply Hframe2, Hdisj. by eapply list_elem_of_lookup_2.
    + rewrite Hobjs2. apply list_fmap_ext. intros i p Hp.
      apply HkeptB. by eapply list_elem_of_lookup_2.
Qed.

(** C6 as worded does not hold for every pair of rosters: with 2147483647
    doctors on the left and one on the right the [int] sum overflows, and the
    merged roster does not carry the sum. *)
Lemma merge_doctorsCount_overflow :
  ∃ (m : Polyclinic.t) (h' : heap),
    Polyclinic.op_plus (Polyclinic.ctor "A" "a" 2147483647)
                       (Polyclinic.ctor "B" "b" 1) ∅ = (Ret m, h') ∧
    Polyclinic.doctorsCount m = -2147483648 ∧
    Polyclinic.doctorsCount m
      ≠ Polyclinic.doctorsCount (Polyclinic.ctor "A" "a" 2147483647)
        + Polyclinic.doctorsCount (Polyclinic.ctor "B" "b" 1).
Proof.
  eexists _, _. split; [reflexivity|]. split; [reflexivity|]. discriminate.
Qed.

(** C6, amended: for rosters [A] and [B] whose doctor counts have a sum that
    fits [int], [A + B] returns a roster named [A]'s name, [" + "], [B]'s
    name, with that sum as doctor count, and with as many records as [A] and
    [B] together: first the records of [A], then the records of [B], in
    order, all in new objects.  No object that existed changes, so [A] and
    [B] hold the records they held. *)
Theorem merge_spec (A B : Polyclinic.t) (h : heap) :
  owns A h → owns B h →
  in_int (Polyclinic.doctorsCount A + Polyclinic.doctorsCount B) →
  ∃ (m : Polyclinic.t) (h' : heap),
    Polyclinic.op_plus A B h = (Ret m, h') ∧
    Polyclinic.name m = Polyclinic.name A +:+ " + " +:+ Polyclinic.name B ∧
    Polyclinic.doctorsCount m
      = Polyclinic.doctorsCount A + Polyclinic.doctorsCount B ∧
    length (Polyclinic.patients m)
      = (length (Polyclinic.patients A) + length (Polyclinic.patients B))%nat ∧
    (Z.of_nat (length (Polyclinic.patients A) + length (Polyclinic.patients B))
       ≤ INT_MAX →
     Polyclinic.getPatientsCount m
       = Polyclinic.getPatientsCount A + Polyclinic.getPatientsCount B) ∧
    (∀ i, (i < length (Polyclinic.patients A))%nat →
       recordAt m h' i = recordAt A h i) ∧
    (∀ i, recordAt m h' (length (Polyclinic.patients A) + i) = recordAt B h i) ∧
    owns m h' ∧
    (∀ q, q ∈ Polyclinic.patients m → h !! q = None) ∧
    (∀ l, is_Some (h !! l) → h' !! l = h !! l) ∧
    (∀ i, recordAt A h' i = recordAt A h i) ∧
    (∀ i, recordAt B h' i = recordAt B h i).
Proof.
  intros [HndA HliveA] [HndB HliveB] Hfit.
  destruct (op_plus_run A B h HliveA HliveB)
    as (m & h' & Hrun & Hname & _ & Hdoc & Hnd & Hnew & Hframe & Hobjs).
  assert (length (Polyclinic.patients m)
          = (length (Polyclinic.patients A) + length (Polyclinic.patients B))%nat)
    as Hlen.
  { apply (f_equal length) in Hobjs.
    by rewrite !length_fmap, length_app in Hobjs. }
  pose proof (lookup_objects_ext _ _ _ _ Hobjs) as Hrec.
  assert (∀ l, is_Some (h !! l) → h' !! l = h !! l) as Hkept.
  { intros l Hl. apply Hframe. by eapply live_not_new. }
  assert (∀ (c : Polyclinic.t),
            (∀ p, p ∈ Polyclinic.patients c → is_Some (h !! p)) →
            ∀ i, recordAt c h' i = recordAt c h i) as Hsame.
  { intros c Hc i. rewrite !recordAt_lookup.
    destruct (Polyclinic.patients c !! i) as [p|] eqn:Hp; [|done]. simpl.
    apply Hkept, Hc. by eapply list_elem_of_lookup_2. }
  exists m, h'. split; [done|]. split; [done|]. split.
  { rewrite Hdoc. by apply wrap_int_id. }
  split; [done|]. split.
  { intros Hsmall. unfold Polyclinic.getPatientsCount. rewrite Hlen.
    rewrite !static_cast_int_small by (unfold INT_MAX in *; lia). lia. }
  split.
  { intros i Hi. rewrite !recordAt_lookup, Hrec. by rewrite lookup_app_l. }
  split.
  { intros i. rewrite !recordAt_lookup, Hrec.
    rewrite lookup_app_r by lia. f_equal. f_equal. lia. }
  split.
  { split; [done|]. eapply objects_live; [exact Hobjs|].
    intros p [Hp|Hp]%elem_of_app; auto. }
  split; [done|]. split; [done|]. split; by apply Hsame.
Qed.

(** The witness of C6: the roster of [main] merged with a second roster of
    two records. *)
Lemma merge_spec_witness :
  owns demo_clinic shared_heap ∧ owns second_clinic shared_heap ∧
  in_int (Polyclinic.doctorsCount demo_clinic
          + Polyclinic.doctorsCount second_clinic) ∧
  ∃ (m : Polyclinic.t) (h' : heap),
    Polyclinic.op_plus demo_clinic second_clinic shared_heap = (Ret m, h') ∧
    Polyclinic.doctorsCount m = 32 ∧
    length (Polyclinic.patients m) = 5%nat ∧
    recordAt m h' 3
      = Some (IsChild (ChildPatient.ctor "Олег" 12 "Травма" "Тато: +380631234567")).
Proof.
  assert (owns demo_clinic shared_heap) as HA.
  { apply ownsb_owns. vm_compute. reflexivity. }
  assert (owns second_clinic shared_heap) as HB.
  { apply ownsb_owns. vm_compute. reflexivity. }
  assert (in_int (Polyclinic.doctorsCount demo_clinic
                  + Polyclinic.doctorsCount second_clinic)) as Hfit.
  { split; vm_compute; discriminate. }
  split; [exact HA|]. split; [exact HB|]. split; [exact Hfit|].
  destruct (merge_spec demo_clinic second_clinic shared_heap HA HB Hfit)
    as (m & h' & Hrun & _ & Hdoc & Hlen & _ & _ & HrecB & _).
  exists m, h'. split; [exact Hrun|]. split; [exact Hdoc|]. split; [exact Hlen|].
  exact (HrecB 0%nat).
Defined.

(** C10: the roster returned by [A + B] has the address of [A]. *)
Theorem merge_keeps_left_address (A B : Polyclinic.t) (h : heap) :
  owns A h → owns B h →
  ∃ (m : Polyclinic.t) (h' : heap),
    Polyclinic.op_plus A B h = (Ret m, h') ∧
    Polyclinic.address m = Polyclinic.address A.
Proof.
  intros [_ HliveA] [_ HliveB].
  destruct (op_plus_run A B h HliveA HliveB) as (m & h' & Hrun & _ & Haddr & _).
  by exists m, h'.
Qed.

(** The witness of C10: the merged roster of the two sample rosters is at the
    address of the roster of [main]. *)
Lemma merge_keeps_left_address_witness :
  owns demo_clinic shared_heap ∧ owns second_clinic shared_heap ∧
  ∃ (m : Polyclinic.t) (h' : heap),
    Polyclinic.op_plus demo_clinic second_clinic shared_heap = (Ret m, h') ∧
    Polyclinic.address m = "вул. Головна, 10".
Proof.
  assert (owns demo_clinic shared_heap) as HA.
  { apply ownsb_owns. vm_compute. reflexivity. }
  assert (owns second_clinic shared_heap) as HB.
  { apply ownsb_owns. vm_compute. reflexivity. }
  split; [exact HA|]. split; [exact HB|].
  destruct (merge_keeps_left_address demo_clinic second_clinic shared_heap HA HB)
    as (m & h' & Hrun & Haddr).
  exists m, h'. split; [exact Hrun|exact Haddr].
Defined.

(** * Further properties of the program *)

(** ** Texts *)

Lemma append_cons (x : Ascii.ascii) (a b : string) :
  String x a +:+ b = String x (a +:+ b).
Proof. reflexivity. Qed.

Lemma append_nil_l (b : string) : "" +:+ b = b.
Proof. reflexivity. Qed.

Lemma append_assoc (a b c : string) : (a +:+ b) +:+ c = a +:+ b +:+ c.
Proof.
  induction a as [|x a IH]; [done|]. rewrite !append_cons. by rewrite IH.
Qed.

Lemma append_nil_r (a : string) : a +:+ "" = a.
Proof.
  induction a as [|x a IH]; [done|]. rewrite append_cons. by rewrite IH.
Qed.

Lemma bar_free_cons (c : Ascii.ascii) (s : string) :
  bar_free (String c s) = true ↔ c ≠ bar ∧ bar_free s = true.
Proof.
  simpl. rewrite andb_true_iff, negb_true_iff. by rewrite Ascii.eqb_neq.
Qed.

(** Two texts that agree up to and after their first separator are made of
    the same parts. *)
Lemma bar_split (a b r1 r2 : string) :
  bar_free a = true → bar_free b = true →
  a +:+ String bar r1 = b +:+ String bar r2 → a = b ∧ r1 = r2.
Proof.
  revert b. induction a as [|x a IH]; intros [|y b] Ha Hb Heq;
    rewrite ?append_cons, ?append_nil_l in Heq.
  - by injection Heq.
  - injection Heq as <- _. apply bar_free_cons in Hb as [Hb _]. done.
  - injection Heq as -> _. apply bar_free_cons in Ha as [Ha _]. done.
  - injection Heq as -> Heq.
    apply bar_free_cons in Ha as [_ Ha]. apply bar_free_cons in Hb as [_ Hb].
    destruct (IH b Ha Hb Heq) as [-> ->]. done.
Qed.

Lemma pretty_N_go_bar_free (x : N) (s : string) :
  bar_free s = true → bar_free (pretty_N_go x s) = true.
Proof.
  revert s. induction (N.lt_wf_0 x) as [x _ IH]; intros s Hs.
  assert (x = 0 ∨ 0 < x)%N as [->|Hx] by lia.
  - by rewrite pretty_N_go_0.
  - rewrite pretty_N_go_step by done. apply IH.
    + by apply N.div_lt.
    + apply bar_free_cons. split; [|done].
      unfold pretty_N_char. by repeat case_match.
Qed.

(** A decimal numeral holds no separator. *)
Lemma to_string_bar_free (z : Z) : bar_free (to_string z) = true.
Proof.
  assert (∀ n : N, bar_free (pretty n) = true) as HN.
  { intros n. unfold pretty, pretty_N. case_decide; [done|].
    by apply pretty_N_go_bar_free. }
  destruct z as [|p|p]; [done|apply HN|].
  change (to_string (Z.neg p)) with ("-" +:+ pretty (N.pos p)).
  rewrite append_cons, append_nil_l. apply bar_free_cons. split; [done|apply HN].
Qed.

(** X17: on records whose text fields hold no [|], the serialized line
    determines the record: two such records with the same line are of the
    same class and equal field by field. *)
Theorem toLine_injective (o1 o2 : object) :
  fields_bar_free o1 = true → fields_bar_free o2 = true →
  toLine o1 = toLine o2 → o1 = o2.
Proof.
  unfold fields_bar_free.
  destruct o1 as [[n1 a1 d1]|[[n1 a1 d1] x1]|[[n1 a1 d1] x1 y1]],
           o2 as [[n2 a2 d2]|[[n2 a2 d2] x2]|[[n2 a2 d2] x2 y2]];
    cbn [as_Patient extra_fields forallb Patient.name Patient.disease
         ChildPatient.base ElderPatient.base ChildPatient.parentContact
         ElderPatient.allergies ElderPatient.contraindications];
    rewrite !andb_true_iff; intros H1 H2;
    unfold toLine, Patient.toLine, ChildPatient.toLine, ElderPatient.toLine,
      Patient.getName, Patient.getAge, Patient.getDisease;
    cbn [Patient.name Patient.age Patient.disease
         ChildPatient.base ElderPatient.base ChildPatient.parentContact
         ElderPatient.allergies ElderPatient.contraindications];
    intros Heq; rewrite ?append_cons, ?append_nil_l in Heq;
    try discriminate Heq.
  all: injection Heq as Heq.
  all: apply bar_split in Heq as [-> Heq]; [|tauto..].
  all: apply bar_split in Heq as [Hage Heq]; [|apply to_string_bar_free..].
  all: apply (inj (pretty : Z → string)) in Hage as ->.
  all: try (apply bar_split in Heq as [-> Heq]; [|tauto..]).
  all: try (apply bar_split in Heq as [-> Heq]; [|tauto..]).
  all: by rewrite Heq.
Qed.

(** The witness of X17. *)
Lemma toLine_injective_witness :
  fields_bar_free (IsChild (ChildPatient.ctor "Marta" 7 "Cold" "+380501112233"))
    = true ∧
  fields_bar_free
    (on_Patient (λ p, Patient.setAge p 7)
       (IsChild (ChildPatient.ctor "Marta" 70 "Cold" "+380501112233"))) = true ∧
  IsChild (ChildPatient.ctor "Marta" 7 "Cold" "+380501112233")
    = on_Patient (λ p, Patient.setAge p 7)
        (IsChild (ChildPatient.ctor "Marta" 70 "Cold" "+380501112233")).
Proof.
  split; [reflexivity|]. split; [reflexivity|].
  apply toLine_injective; reflexivity.
Defined.

(** Without the condition the line does not determine the record. *)
Example toLine_collision :
  toLine (IsPatient (Patient.ctor "a|1|b" 2 "c"))
    = toLine (IsPatient (Patient.ctor "a" 1 "b|2|c")).
Proof. reflexivity. Qed.

(** ** Equality and setters of records *)

Lemma op_eq_true (x y : object) :
  op_eq x y = true ↔
    Patient.name (as_Patient x) = Patient.name (as_Patient y) ∧
    Patient.age (as_Patient x) = Patient.age (as_Patient y).
Proof.
  unfold op_eq, Patient.op_eq.
  by rewrite andb_true_iff, String.eqb_eq, Z.eqb_eq.
Qed.

(** X14: [==] on patient records is reflexive, symmetric and transitive, and
    [!=] is its negation. *)
Theorem patient_equality_equivalence (x y z : object) :
  op_eq x x = true ∧
  op_eq x y = op_eq y x ∧
  (op_eq x y = true → op_eq y z = true → op_eq x z = true) ∧
  op_ne x y = negb (op_eq x y).
Proof.
  split_and!.
  - by apply op_eq_true.
  - unfold op_eq, Patient.op_eq. by rewrite String.eqb_sym, Z.eqb_sym.
  - rewrite !op_eq_true. intros [-> ->] [-> ->]. done.
  - done.
Qed.

(** The witness of X14: three records of three classes with one name and
    age. *)
Lemma patient_equality_equivalence_witness :
  op_eq (IsPatient (Patient.ctor "Ірина" 67 "Грип"))
        (IsChild (ChildPatient.ctor "Ірина" 67 "Травма" "Тато")) = true ∧
  op_eq (IsChild (ChildPatient.ctor "Ірина" 67 "Травма" "Тато"))
        (IsElder (ElderPatient.ctor "Ірина" 67 "Діабет" "Немає" "Дієта")) = true ∧
  op_eq (IsPatient (Patient.ctor "Ірина" 67 "Грип"))
        (IsElder (ElderPatient.ctor "Ірина" 67 "Діабет" "Немає" "Дієта")) = true.
Proof.
  assert (op_eq (IsPatient (Patient.ctor "Ірина" 67 "Грип"))
            (IsChild (ChildPatient.ctor "Ірина" 67 "Травма" "Тато")) = true)
    as H1 by reflexivity.
  assert (op_eq (IsChild (ChildPatient.ctor "Ірина" 67 "Травма" "Тато"))
            (IsElder (ElderPatient.ctor "Ірина" 67 "Діабет" "Немає" "Дієта"))
          = true) as H2 by reflexivity.
  split; [exact H1|]. split; [exact H2|].
  exact (proj1 (proj2 (proj2 (patient_equality_equivalence _ _ _))) H1 H2).
Defined.


(** ** Construction, access and addition *)

(** X1: the constructor stores name and address as given and clamps a
    negative number of doctors to 0; the new roster has no records: its count
    is 0, every index is out of range, and it owns its (no) records in any
    heap. *)
Theorem ctor_clamps_and_is_empty (n a : string) (d : Z) (h : heap) :
  Polyclinic.name (Polyclinic.ctor n a d) = n ∧
  Polyclinic.address (Polyclinic.ctor n a d) = a ∧
  Polyclinic.doctorsCount (Polyclinic.ctor n a d) = Z.max 0 d ∧
  Polyclinic.getPatientsCount (Polyclinic.ctor n a d) = 0 ∧
  (∀ i, Polyclinic.getPatientPtr (Polyclinic.ctor n a d) i = None) ∧
  owns (Polyclinic.ctor n a d) h.
Proof.
  split_and!; try done.
  - simpl. destruct (Z.ltb_spec d 0); lia.
  - split; [constructor|]. by intros p ?%elem_of_nil.
Qed.

(** X4: [getPatientPtr] returns [nullptr] exactly for an index at or beyond
    the size; on a roster that owns its records an index below the size gives
    a pointer to a live object, and two different indices never give the same
    pointer. *)
Theorem getPatientPtr_bounds (R : Polyclinic.t) (h : heap) (i j : nat) :
  (Polyclinic.getPatientPtr R i = None ↔
     (length (Polyclinic.patients R) ≤ i)%nat) ∧
  (owns R h → (i < length (Polyclinic.patients R))%nat →
     ∃ p o, Polyclinic.getPatientPtr R i = Some p ∧ h !! p = Some o) ∧
  (owns R h → ∀ p, Polyclinic.getPatientPtr R i = Some p →
     Polyclinic.getPatientPtr R j = Some p → i = j).
Proof.
  assert (∀ k, Polyclinic.getPatientPtr R k = Polyclinic.patients R !! k) as Hget.
  { intros k. unfold Polyclinic.getPatientPtr.
    destruct (Nat.ltb_spec k (length (Polyclinic.patients R))) as [Hk|Hk]; [done|].
    by rewrite (lookup_ge_None_2 _ _ Hk). }
  rewrite !Hget. split_and!.
  - apply lookup_ge_None.
  - intros [_ Hlive] Hi. destruct (lookup_lt_is_Some_2 _ _ Hi) as [p Hp].
    destruct (Hlive p) as [o Ho]; [by eapply list_elem_of_lookup_2|].
    by exists p, o.
  - intros [Hnd _] p Hi Hj. by eapply NoDup_lookup.
Qed.

(** The witness of X4, on the roster of [main]. *)
Lemma getPatientPtr_bounds_witness :
  owns demo_clinic demo_heap ∧
  (1 < length (Polyclinic.patients demo_clinic))%nat ∧
  ∃ p o, Polyclinic.getPatientPtr demo_clinic 1 = Some p ∧
         (demo_heap : heap) !! p = Some o.
Proof.
  assert (owns demo_clinic demo_heap) as Hown.
  { apply ownsb_owns. vm_compute. reflexivity. }
  assert (1 < length (Polyclinic.patients demo_clinic))%nat as Hlt.
  { vm_compute. lia. }
  split; [exact Hown|]. split; [exact Hlt|].
  exact (proj1 (proj2 (getPatientPtr_bounds demo_clinic demo_heap 1 0)) Hown Hlt).
Defined.

(** What [addPatient] does to a roster that owns its records. *)
Lemma addPatient_owned (R : Polyclinic.t) (h : heap) (o : object) :
  owns R h →
  ∃ (R' : Polyclinic.t) (h' : heap) (q : loc),
    Polyclinic.addPatient o (R, h) = (Ret (), (R', h')) ∧
    Polyclinic.name R' = Polyclinic.name R ∧
    Polyclinic.address R' = Polyclinic.address R ∧
    Polyclinic.doctorsCount R' = Polyclinic.doctorsCount R ∧
    Polyclinic.patients R' = Polyclinic.patients R ++ [q] ∧
    h !! q = None ∧ h' = <[q := o]> h ∧ (q ∉ Polyclinic.patients R) ∧
    owns R' h'.
Proof.
  intros [Hnd Hlive].
  pose proof (fresh_dom_None h) as Hq. set (q := fresh (dom h)) in *.
  assert (q ∉ Polyclinic.patients R) as HqR.
  { intros Hin. destruct (Hlive _ Hin) as [x Hx]. congruence. }
  eexists _, _, q. split; [apply addPatient_run|]. fold q. simpl.
  split_and!; try done.
  split; simpl.
  - apply NoDup_app. split; [done|]. split; [|apply NoDup_singleton].
    intros p Hp ->%list_elem_of_singleton. done.
  - intros p [Hp| ->%list_elem_of_singleton]%elem_of_app.
    + rewrite lookup_insert_ne by (by intros ->). by apply Hlive.
    + rewrite lookup_insert_eq. by eexists.
Qed.

(** X2: [addPatient(p)] on a roster that owns its records returns; the
    roster has one more record, at the end, which is a new object equal to
    [p] and of the class of [p]; the records it had stay at their positions,
    the scalar fields stay, and no object that existed changes. *)
Theorem addPatient_appends_clone (R : Polyclinic.t) (h : heap) (o : object) :
  owns R h →
  ∃ (R' : Polyclinic.t) (h' : heap) (q : loc),
    Polyclinic.addPatient o (R, h) = (Ret (), (R', h')) ∧
    (Polyclinic.name R' = Polyclinic.name R ∧
     Polyclinic.address R' = Polyclinic.address R ∧
     Polyclinic.doctorsCount R' = Polyclinic.doctorsCount R) ∧
    Polyclinic.patients R' = Polyclinic.patients R ++ [q] ∧
    h !! q = None ∧
    recordAt R' h' (length (Polyclinic.patients R)) = Some o ∧
    (∀ i, (i < length (Polyclinic.patients R))%nat →
       recordAt R' h' i = recordAt R h i) ∧
    (∀ l, is_Some (h !! l) → h' !! l = h !! l) ∧
    owns R' h'.
Proof.
  intros Hown.
  destruct (addPatient_owned R h o Hown)
    as (R' & h' & q & Hrun & Hname & Haddr & Hdoc & Hps & Hq & -> & HqR & Hown').
  exists R', (<[q := o]> h), q.
  assert (∀ l, is_Some (h !! l) → <[q := o]> h !! l = h !! l) as Hkept.
  { intros l [x Hx]. apply lookup_insert_ne. intros ->. congruence. }
  split_and!; try done.
  - rewrite recordAt_lookup, Hps, list_lookup_middle by done. simpl.
    apply lookup_insert_eq.
  - intros i Hi. rewrite !recordAt_lookup, Hps, lookup_app_l by done.
    destruct (Polyclinic.patients R !! i) as [p|] eqn:Hp; [|done]. simpl.
    apply Hkept, Hown. by eapply list_elem_of_lookup_2.
Qed.

(** The witness of X2: [c1.addPatient(Patient{})] on the roster of [main]. *)
Lemma addPatient_appends_clone_witness :
  owns demo_clinic demo_heap ∧
  ∃ (R' : Polyclinic.t) (h' : heap),
    Polyclinic.addPatient (IsPatient Patient.ctor_default) (demo_clinic, demo_heap)
      = (Ret (), (R', h')) ∧
    recordAt R' h' 3 = Some (IsPatient Patient.ctor_default).
Proof.
  assert (owns demo_clinic demo_heap) as Hown.
  { apply ownsb_owns. vm_compute. reflexivity. }
  split; [exact Hown|].
  destruct (addPatient_appends_clone demo_clinic demo_heap
              (IsPatient Patient.ctor_default) Hown)
    as (R' & h' & q & Hrun & _ & _ & _ & Hlast & _).
  exists R', h'. split; [exact Hrun|exact Hlast].
Defined.

(** X3: [addChild] and [addElder] return on every roster; the record at the
    old size is then a [ChildPatient] (an [ElderPatient]) with the arguments
    as fields, not a plain [Patient], and its line is the tag and the
    arguments in order. *)
Theorem addChild_addElder_keep_class (R : Polyclinic.t) (h : heap)
    (n d pc al ci : string) (a : Z) :
  (∃ (R' : Polyclinic.t) (h' : heap) (o : object),
     Polyclinic.addChild n a d pc (R, h) = (Ret (), (R', h')) ∧
     length (Polyclinic.patients R') = S (length (Polyclinic.patients R)) ∧
     recordAt R' h' (length (Polyclinic.patients R)) = Some o ∧
     o = IsChild (ChildPatient.ctor n a d pc) ∧
     toLine o = join "|" ["Child"; n; to_string a; d; pc]) ∧
  (∃ (R' : Polyclinic.t) (h' : heap) (o : object),
     Polyclinic.addElder n a d al ci (R, h) = (Ret (), (R', h')) ∧
     length (Polyclinic.patients R') = S (length (Polyclinic.patients R)) ∧
     recordAt R' h' (length (Polyclinic.patients R)) = Some o ∧
     o = IsElder (ElderPatient.ctor n a d al ci) ∧
     toLine o = join "|" ["Elder"; n; to_string a; d; al; ci]).
Proof.
  split; eexists _, _, _;
    (split; [apply addPatient_run|]); simpl;
    (split; [rewrite length_app; simpl; lia|]);
    (split; [|by split]);
    rewrite recordAt_lookup; simpl; rewrite list_lookup_middle by done; simpl;
    apply lookup_insert_eq.
Qed.

(** X5: adding a record and then removing the last one leaves the roster
    and the heap exactly as they were, whatever they were and whatever the
    record; so does [++c] followed by [--c]. *)
Theorem add_then_remove_round_trip (R : Polyclinic.t) (h : heap) :
  (∀ o, (Polyclinic.addPatient o;; Polyclinic.removeLastPatient) (R, h)
        = (Ret (), (R, h))) ∧
  (Polyclinic.op_preinc;; Polyclinic.op_predec) (R, h) = (Ret (), (R, h)).
Proof.
  assert (∀ o, (Polyclinic.addPatient o;; Polyclinic.removeLastPatient) (R, h)
               = (Ret (), (R, h))) as Hround.
  { intros o. unfold mbind at 1, M_bind at 1.
    rewrite addPatient_run.
    pose proof (fresh_dom_None h) as Hq. set (q := fresh (dom h)) in *.
    run_member Polyclinic.removeLastPatient.
    destruct (decide (Polyclinic.patients R ++ [q] = [])) as [Hnil|_].
    { by destruct (Polyclinic.patients R). }
    run_member Polyclinic.pop_back. rewrite last_snoc, removelast_last.
    unfold Polyclinic.on_heap, destroy. simpl. rewrite lookup_insert_eq.
    rewrite delete_insert_eq, delete_id by done.
    by destruct R. }
  split; [done|]. apply Hround.
Qed.

(** ** Destruction *)

Lemma destroy_all_run (ps : list loc) :
  ∀ h : heap,
    NoDup ps → (∀ p, p ∈ ps → is_Some (h !! p)) →
    ∃ h' : heap,
      Polyclinic.destroy_all ps h = (Ret (), h') ∧
      (∀ p, p ∈ ps → h' !! p = None) ∧
      (∀ l, l ∉ ps → h' !! l = h !! l).
Proof.
  induction ps as [|p rest IH]; intros h Hnd Hlive.
  - exists h. split_and!; [done| |done]. by intros p ?%elem_of_nil.
  - apply NoDup_cons in Hnd as [Hp Hnd].
    destruct (Hlive p) as [o Ho]; [by left|].
    destruct (IH (delete p h) Hnd) as (h' & Hrun & Hgone & Hkept).
    { intros q Hq. rewrite lookup_delete_ne by (by intros ->).
      apply Hlive. by right. }
    exists h'. split_and!.
    + cbn [Polyclinic.destroy_all]. unfold mbind, M_bind, destroy.
      by rewrite Ho.
    + intros q [->|Hq]%elem_of_cons; [|by apply Hgone].
      rewrite Hkept by done. apply lookup_delete_eq.
    + intros l [Hlp Hl]%not_elem_of_cons.
      rewrite Hkept by done. by apply lookup_delete_ne.
Qed.

Lemma destroy_all_returns (ps : list loc) :
  ∀ h h' : heap,
    Polyclinic.destroy_all ps h = (Ret (), h') →
    NoDup ps ∧ ∀ p, p ∈ ps → is_Some (h !! p).
Proof.
  induction ps as [|p rest IH]; intros h h' Hrun.
  - split; [constructor|]. by intros p ?%elem_of_nil.
  - cbn [Polyclinic.destroy_all] in Hrun. unfold mbind, M_bind, destroy in Hrun.
    destruct (h !! p) as [o|] eqn:Ho; [|discriminate Hrun].
    destruct (IH _ _ Hrun) as [Hnd Hlive]. split.
    + constructor; [|done]. intros Hin. destruct (Hlive _ Hin) as [x Hx].
      by rewrite lookup_delete_eq in Hx.
    + intros q [->|Hq]%elem_of_cons; [by eexists|].
      destruct (Hlive _ Hq) as [x Hx].
      apply lookup_delete_Some in Hx as [_ Hx]. by eexists.
Qed.

(** X6: the destructor of a roster returns exactly when the roster owns its
    records (pairwise distinct pointers to live objects; otherwise an object
    would be deleted twice or a dangling pointer deleted); it then deletes
    every object of the roster and leaves every other object as it was. *)
Theorem dtor_frees_exactly_own_records (R : Polyclinic.t) (h : heap) :
  ((∃ h', Polyclinic.dtor R h = (Ret (), h')) ↔ owns R h) ∧
  (∀ h', Polyclinic.dtor R h = (Ret (), h') →
     (∀ p, p ∈ Polyclinic.patients R → h' !! p = None) ∧
     (∀ l, l ∉ Polyclinic.patients R → h' !! l = h !! l)).
Proof.
  unfold Polyclinic.dtor. split.
  - split.
    + intros [h' Hrun]. by eapply destroy_all_returns.
    + intros [Hnd Hlive].
      destruct (destroy_all_run _ h Hnd Hlive) as (h' & Hrun & _). by exists h'.
  - intros h' Hrun.
    destruct (destroy_all_returns _ _ _ Hrun) as [Hnd Hlive].
    destruct (destroy_all_run _ h Hnd Hlive) as (h'' & Hrun' & Hgone & Hkept).
    rewrite Hrun in Hrun'. by injection Hrun' as <-.
Qed.

(** The witness of X6: the roster of [main] is destroyed. *)
Lemma dtor_frees_exactly_own_records_witness :
  owns demo_clinic demo_heap ∧
  ∃ h', Polyclinic.dtor demo_clinic demo_heap = (Ret (), h').
Proof.
  assert (owns demo_clinic demo_heap) as Hown.
  { apply ownsb_owns. vm_compute. reflexivity. }
  split; [exact Hown|].
  exact (proj2 (proj1 (dtor_frees_exactly_own_records demo_clinic demo_heap)) Hown).
Defined.

(** X7: copying a roster and destroying the copy gives back the heap there
    was before the copy: the copy constructor allocates nothing that the
    destructor does not free, and the destructor frees nothing of the
    source. *)
Theorem copy_then_destroy_restores_heap (R : Polyclinic.t) (h : heap) :
  owns R h →
  ∃ (C : Polyclinic.t) (h' : heap),
    Polyclinic.ctor_copy R h = (Ret C, h') ∧
    Polyclinic.dtor C h' = (Ret (), h).
Proof.
  intros [_ Hlive].
  destruct (ctor_copy_run R h Hlive)
    as (C & h' & Hrun & _ & _ & _ & Hnd & Hnew & Hframe & Hobjs).
  pose proof (objects_live _ _ _ _ Hobjs Hlive) as HliveC.
  destruct (destroy_all_run _ h' Hnd HliveC) as (h'' & Hrun' & Hgone & Hkept).
  exists C, h'. split; [done|]. unfold Polyclinic.dtor. rewrite Hrun'.
  do 2 f_equal. apply map_eq. intros l.
  destruct (decide (l ∈ Polyclinic.patients C)) as [Hl|Hl].
  - by rewrite Hgone, Hnew.
  - by rewrite Hkept, Hframe.
Qed.

(** The witness of X7, on the roster of [main]. *)
Lemma copy_then_destroy_restores_heap_witness :
  owns demo_clinic demo_heap ∧
  ∃ (C : Polyclinic.t) (h' : heap),
    Polyclinic.ctor_copy demo_clinic demo_heap = (Ret C, h') ∧
    Polyclinic.dtor C h' = (Ret (), demo_heap).
Proof.
  assert (owns demo_clinic demo_heap) as Hown.
  { apply ownsb_owns. vm_compute. reflexivity. }
  split; [exact Hown|].
  exact (copy_then_destroy_restores_heap demo_clinic demo_heap Hown).
Defined.

(** ** Merging in place *)

Lemma op_plus_assign_run (A B : Polyclinic.t) (h : heap) :
  (∀ p, p ∈ Polyclinic.patients B → is_Some (h !! p)) →
  ∃ (A' : Polyclinic.t) (h' : heap) (new : list loc),
    Polyclinic.op_plus_assign B (A, h) = (Ret (), (A', h')) ∧
    Polyclinic.name A' = Polyclinic.name A +:+ " + " +:+ Polyclinic.name B ∧
    Polyclinic.address A' = Polyclinic.address A ∧
    Polyclinic.doctorsCount A'
      = int_add (Polyclinic.doctorsCount A) (Polyclinic.doctorsCount B) ∧
    Polyclinic.patients A' = Polyclinic.patients A ++ new ∧
    NoDup new ∧
    (∀ q, q ∈ new → h !! q = None) ∧
    (∀ l, l ∉ new → h' !! l = h !! l) ∧
    (λ q, h' !! q) <$> new = (λ p, h !! p) <$> Polyclinic.patients B.
Proof.
  intros HliveB.
  destruct (clone_all_run (Polyclinic.patients B) (Polyclinic.patients A) h HliveB)
    as (new & h' & Hrun & Hnd & Hnew & Hframe & Hobjs).
  eexists _, h', new. split.
  { unfold Polyclinic.op_plus_assign, mbind, M_bind, Polyclinic.get_this,
      Polyclinic.set_name, Polyclinic.set_doctorsCount, Polyclinic.on_heap.
    cbn [fst snd Polyclinic.with_name Polyclinic.with_doctorsCount
         Polyclinic.patients Polyclinic.name Polyclinic.doctorsCount].
    rewrite Hrun. reflexivity. }
  by split_and!.
Qed.

(** X8: [A += B], for a roster [A] that owns its records and another roster
    [B] that owns its own (no record is shared between the two), returns; [A] then has the name [A]'s name, [" + "],
    [B]'s name, the address it had, and the [int] sum of the doctor counts
    (the sum itself where it fits [int]); it keeps its own objects at their
    positions and has clones of the records of [B], in order, behind them.
    No object that existed changes, so [B] holds what it held. *)
Theorem op_plus_assign_spec (A B : Polyclinic.t) (h : heap) :
  owns A h → owns B h →
  (∀ p, p ∈ Polyclinic.patients B → p ∉ Polyclinic.patients A) →
  ∃ (A' : Polyclinic.t) (h' : heap) (new : list loc),
    Polyclinic.op_plus_assign B (A, h) = (Ret (), (A', h')) ∧
    Polyclinic.name A' = Polyclinic.name A +:+ " + " +:+ Polyclinic.name B ∧
    Polyclinic.address A' = Polyclinic.address A ∧
    Polyclinic.doctorsCount A'
      = int_add (Polyclinic.doctorsCount A) (Polyclinic.doctorsCount B) ∧
    (in_int (Polyclinic.doctorsCount A + Polyclinic.doctorsCount B) →
     Polyclinic.doctorsCount A'
       = Polyclinic.doctorsCount A + Polyclinic.doctorsCount B) ∧
    Polyclinic.patients A' = Polyclinic.patients A ++ new ∧
    length new = length (Polyclinic.patients B) ∧
    (∀ q, q ∈ new → h !! q = None) ∧
    (∀ i, (i < length (Polyclinic.patients A))%nat →
       recordAt A' h' i = recordAt A h i) ∧
    (∀ i, recordAt A' h' (length (Polyclinic.patients A) + i) = recordAt B h i) ∧
    (∀ l, is_Some (h !! l) → h' !! l = h !! l) ∧
    (∀ i, recordAt B h' i = recordAt B h i) ∧
    owns A' h'.
Proof.
  intros [HndA HliveA] [HndB HliveB] _.
  destruct (op_plus_assign_run A B h HliveB)
    as (A' & h' & new & Hrun & Hname & Haddr & Hdoc & Hps & Hnd & Hnew
        & Hframe & Hobjs).
  assert (∀ l, is_Some (h !! l) → h' !! l = h !! l) as Hkept.
  { intros l Hl. apply Hframe. by eapply live_not_new. }
  pose proof (objects_live _ _ _ _ Hobjs HliveB) as Hlivenew.
  pose proof (lookup_objects_ext _ _ _ _ Hobjs) as Hrec.
  exists A', h', new. split; [done|]. split; [done|]. split; [done|].
  split; [done|]. split.
  { intros Hfit. rewrite Hdoc. by apply wrap_int_id. }
  split; [done|]. split.
  { apply (f_equal length) in Hobjs. by rewrite !length_fmap in Hobjs. }
  split; [done|]. split.
  { intros i Hi. rewrite !recordAt_lookup, Hps, lookup_app_l by done.
    destruct (Polyclinic.patients A !! i) as [p|] eqn:Hp; [|done]. simpl.
    apply Hkept, HliveA. by eapply list_elem_of_lookup_2. }
  split.
  { intros i. rewrite !recordAt_lookup, Hps, lookup_app_r by lia.
    replace (length (Polyclinic.patients A) + i - length (Polyclinic.patients A))%nat
      with i by lia.
    apply Hrec. }
  split; [done|]. split.
  { intros i. rewrite !recordAt_lookup.
    destruct (Polyclinic.patients B !! i) as [p|] eqn:Hp; [|done]. simpl.
    apply Hkept, HliveB. by eapply list_elem_of_lookup_2. }
  split; rewrite Hps.
  - apply NoDup_app. split; [done|]. split; [|done].
    intros p Hp. by eapply live_not_new; [|apply HliveA].
  - intros p [Hp|Hp]%elem_of_app; [|by apply Hlivenew].
    rewrite Hkept by (by apply HliveA). by apply HliveA.
Qed.

(** The witness of X8: the roster of [main] takes in the second roster. *)
Lemma op_plus_assign_spec_witness :
  owns demo_clinic shared_heap ∧ owns second_clinic shared_heap ∧
  (∀ p, p ∈ Polyclinic.patients second_clinic →
        p ∉ Polyclinic.patients demo_clinic) ∧
  ∃ (A' : Polyclinic.t) (h' : heap),
    Polyclinic.op_plus_assign second_clinic (demo_clinic, shared_heap)
      = (Ret (), (A', h')) ∧
    length (Polyclinic.patients A') = 5%nat ∧
    recordAt A' h' 4 = recordAt second_clinic shared_heap 1.
Proof.
  assert (owns demo_clinic shared_heap) as HA.
  { apply ownsb_owns. vm_compute. reflexivity. }
  assert (owns second_clinic shared_heap) as HB.
  { apply ownsb_owns. vm_compute. reflexivity. }
  assert (∀ p, p ∈ Polyclinic.patients second_clinic →
               p ∉ Polyclinic.patients demo_clinic) as Hdisj.
  { intros p Hp Hq. apply list_elem_of_In in Hp, Hq.
    vm_compute in Hp, Hq. intuition congruence. }
  split; [exact HA|]. split; [exact HB|]. split; [exact Hdisj|].
  destruct (op_plus_assign_spec demo_clinic second_clinic shared_heap
              HA HB Hdisj)
    as (A' & h' & new & Hrun & _ & _ & _ & _ & Hps & Hlen & _ & _ & HrecB & _).
  exists A', h'. split; [exact Hrun|]. split.
  - rewrite Hps, length_app, Hlen. vm_compute. reflexivity.
  - exact (HrecB 1%nat).
Defined.

(** X9: [A += B] and [A + B] build the same roster: for two rosters that
    own their records and share none, from the same state,
    the receiver after [+=] and the roster returned by [+] have the same
    name, address and doctor count (also where the sum overflows) and the
    same record at every index.  The difference is in the objects: [+=]
    keeps the receiver's own, [+] returns new ones throughout. *)
Theorem op_plus_assign_agrees_with_op_plus (A B : Polyclinic.t) (h : heap) :
  owns A h → owns B h →
  (∀ p, p ∈ Polyclinic.patients B → p ∉ Polyclinic.patients A) →
  ∃ (m : Polyclinic.t) (h1 : heap) (A' : Polyclinic.t) (h2 : heap),
    Polyclinic.op_plus A B h = (Ret m, h1) ∧
    Polyclinic.op_plus_assign B (A, h) = (Ret (), (A', h2)) ∧
    Polyclinic.name m = Polyclinic.name A' ∧
    Polyclinic.address m = Polyclinic.address A' ∧
    Polyclinic.doctorsCount m = Polyclinic.doctorsCount A' ∧
    (∀ i, recordAt m h1 i = recordAt A' h2 i) ∧
    (∀ p, p ∈ Polyclinic.patients A → p ∈ Polyclinic.patients A') ∧
    (∀ p, p ∈ Polyclinic.patients A → p ∉ Polyclinic.patients m).
Proof.
  intros [HndA HliveA] [HndB HliveB] _.
  destruct (op_plus_run A B h HliveA HliveB)
    as (m & h1 & Hrun1 & Hname1 & Haddr1 & Hdoc1 & _ & Hnew1 & _ & Hobjs1).
  destruct (op_plus_assign_run A B h HliveB)
    as (A' & h2 & new & Hrun2 & Hname2 & Haddr2 & Hdoc2 & Hps & _ & Hnew2
        & Hframe2 & Hobjs2).
  exists m, h1, A', h2. split; [done|]. split; [done|].
  split; [congruence|]. split; [congruence|]. split; [congruence|].
  split; [|split].
  - apply recordAt_ext. rewrite Hobjs1, Hps, !fmap_app, Hobjs2. f_equal.
    apply list_fmap_ext. intros i p Hp. symmetry. apply Hframe2.
    eapply live_not_new; [done|]. apply HliveA. by eapply list_elem_of_lookup_2.
  - intros p Hp. rewrite Hps. apply elem_of_app. by left.
  - intros p Hp Hin. destruct (HliveA _ Hp) as [o Ho].
    rewrite (Hnew1 _ Hin) in Ho. done.
Qed.

(** The witness of X9, on the two sample rosters. *)
Lemma op_plus_assign_agrees_with_op_plus_witness :
  owns demo_clinic shared_heap ∧ owns second_clinic shared_heap ∧
  (∀ p, p ∈ Polyclinic.patients second_clinic →
        p ∉ Polyclinic.patients demo_clinic) ∧
  ∃ (m : Polyclinic.t) (h1 : heap) (A' : Polyclinic.t) (h2 : heap),
    Polyclinic.op_plus demo_clinic second_clinic shared_heap = (Ret m, h1) ∧
    Polyclinic.op_plus_assign second_clinic (demo_clinic, shared_heap)
      = (Ret (), (A', h2)) ∧
    (∀ i, recordAt m h1 i = recordAt A' h2 i).
Proof.
  assert (owns demo_clinic shared_heap) as HA.
  { apply ownsb_owns. vm_compute. reflexivity. }
  assert (owns second_clinic shared_heap) as HB.
  { apply ownsb_owns. vm_compute. reflexivity. }
  assert (∀ p, p ∈ Polyclinic.patients second_clinic →
               p ∉ Polyclinic.patients demo_clinic) as Hdisj.
  { intros p Hp Hq. apply list_elem_of_In in Hp, Hq.
    vm_compute in Hp, Hq. intuition congruence. }
  split; [exact HA|]. split; [exact HB|]. split; [exact Hdisj|].
  destruct (op_plus_assign_agrees_with_op_plus
              demo_clinic second_clinic shared_heap HA HB Hdisj)
    as (m & h1 & A' & h2 & Hrun1 & Hrun2 & _ & _ & _ & Hrec & _).
  exists m, h1, A', h2. split; [exact Hrun1|]. split; [exact Hrun2|exact Hrec].
Defined.

(** ** Decrement *)

Lemma removeLastPatient_empty (R : Polyclinic.t) (h : heap) :
  Polyclinic.patients R = [] →
  Polyclinic.removeLastPatient (R, h)
  = (Throw (EmptyClinicError "Немає пацієнтів для видалення"), (R, h)).
Proof.
  intros Hnil. run_member Polyclinic.removeLastPatient. by rewrite Hnil.
Qed.

Lemma removeLastPatient_owned (R : Polyclinic.t) (h : heap) :
  owns R h → Polyclinic.patients R ≠ [] →
  ∃ (R' : Polyclinic.t) (p : loc),
    Polyclinic.removeLastPatient (R, h) = (Ret (), (R', delete p h)) ∧
    Polyclinic.name R' = Polyclinic.name R ∧
    Polyclinic.address R' = Polyclinic.address R ∧
    Polyclinic.doctorsCount R' = Polyclinic.doctorsCount R ∧
    Polyclinic.patients R = Polyclinic.patients R' ++ [p] ∧
    (∀ i, (i < length (Polyclinic.patients R'))%nat →
       recordAt R' (delete p h) i = recordAt R h i) ∧
    owns R' (delete p h).
Proof.
  intros Hown Hne.
  destruct (Polyclinic.patients R) as [|p ps _] eqn:Hps using rev_ind; [done|].
  assert (Polyclinic.patients R !! length ps = Some p) as Hi.
  { rewrite Hps. by rewrite list_lookup_middle. }
  destruct (erase_run R h (length ps) p Hown Hi)
    as (R' & Hrun & Hname & Haddr & Hdoc & Hpat & Hlt & _ & Hown').
  assert (Polyclinic.patients R' = ps) as Hps'.
  { rewrite Hpat, Hps. by rewrite (delete_middle ps [] p), app_nil_r. }
  exists R', p. split.
  { run_member Polyclinic.removeLastPatient. rewrite Hps.
    destruct (decide (ps ++ [p] = [])) as [Hnil|_]; [by destruct ps|].
    run_member Polyclinic.pop_back. rewrite Hps, last_snoc, removelast_last.
    unfold Polyclinic.erase, mbind, M_bind, Polyclinic.get_this in Hrun.
    simpl in Hrun. rewrite Hi, Hps in Hrun.
    rewrite (delete_middle ps [] p), app_nil_r in Hrun. exact Hrun. }
  rewrite Hps'. by split_and!.
Qed.

(** X10: [c--] on a roster without records throws [EmptyClinicError], and
    roster and heap are as before the call: the copy made first is destroyed
    on the way out.  On a roster that owns at least one record it returns a
    roster with the scalar fields and, index by index, the records there were
    before the call, in objects of its own, while the receiver loses its last
    record, whose object is deleted, and keeps the others. *)
Theorem op_postdec_spec (R : Polyclinic.t) (h : heap) :
  (Polyclinic.patients R = [] →
     Polyclinic.op_postdec (R, h)
     = (Throw (EmptyClinicError "Немає пацієнтів для видалення"), (R, h))) ∧
  (Polyclinic.patients R ≠ [] → owns R h →
     ∃ (T R' : Polyclinic.t) (h' : heap) (p : loc),
       Polyclinic.op_postdec (R, h) = (Ret T, (R', h')) ∧
       (Polyclinic.name T = Polyclinic.name R ∧
        Polyclinic.address T = Polyclinic.address R ∧
        Polyclinic.doctorsCount T = Polyclinic.doctorsCount R) ∧
       (∀ i, recordAt T h' i = recordAt R h i) ∧
       (Polyclinic.name R' = Polyclinic.name R ∧
        Polyclinic.address R' = Polyclinic.address R ∧
        Polyclinic.doctorsCount R' = Polyclinic.doctorsCount R) ∧
       Polyclinic.patients R = Polyclinic.patients R' ++ [p] ∧
       h' !! p = None ∧
       (∀ i, (i < length (Polyclinic.patients R'))%nat →
          recordAt R' h' i = recordAt R h i) ∧
       owns T h' ∧ owns R' h' ∧
       (∀ q, q ∈ Polyclinic.patients T → q ∉ Polyclinic.patients R)).
Proof.
  split.
  - intros Hnil. destruct R as [n a d ps]. simpl in Hnil. subst ps. reflexivity.
  - intros Hne [HndR Hlive].
    destruct (ctor_copy_run R h Hlive)
      as (T & h1 & HrunT & Hname & Haddr & Hdoc & HndT & Hnew & Hframe & Hobjs).
    pose proof (objects_live _ _ _ _ Hobjs Hlive) as HliveT.
    assert (∀ q, q ∈ Polyclinic.patients R → h1 !! q = h !! q) as HkeptR.
    { intros q Hq. apply Hframe. by eapply live_not_new; [|apply Hlive]. }
    assert (owns R h1) as Hown1.
    { split; [done|]. intros q Hq. rewrite HkeptR by done. by apply Hlive. }
    destruct (removeLastPatient_owned R h1 Hown1 Hne)
      as (R' & p & Hrun & Hname' & Haddr' & Hdoc' & Hps & Hrec' & Hown').
    assert (p ∈ Polyclinic.patients R) as HpR.
    { rewrite Hps. apply elem_of_app. right. by left. }
    assert (∀ q, q ∈ Polyclinic.patients T → q ∉ Polyclinic.patients R) as Hdisj.
    { intros q Hq HqR. destruct (Hlive _ HqR) as [o Ho].
      rewrite (Hnew _ Hq) in Ho. done. }
    exists T, R', (delete p h1), p. split.
    { unfold Polyclinic.op_postdec, mbind, M_bind, Polyclinic.get_this,
        Polyclinic.on_heap, unwinding, Polyclinic.op_predec.
      cbn [fst snd]. rewrite HrunT, Hrun. reflexivity. }
    split; [done|]. split.
    { apply recordAt_ext. rewrite <- Hobjs. apply list_fmap_ext.
      intros i q Hq. apply lookup_delete_ne. intros ->.
      eapply Hdisj; [|exact HpR]. by eapply list_elem_of_lookup_2. }
    split; [done|]. split; [done|]. split; [apply lookup_delete_eq|].
    split.
    { intros i Hi. rewrite Hrec' by done. rewrite !recordAt_lookup.
      destruct (Polyclinic.patients R !! i) as [q|] eqn:Hq; [|done]. simpl.
      apply HkeptR. by eapply list_elem_of_lookup_2. }
    split; [|done].
    split; [done|]. intros q Hq.
    rewrite lookup_delete_ne; [by apply HliveT|].
    intros ->. by eapply Hdisj.
Qed.

(** The witness of X10: [empty--] and [c1--] for the rosters of [main]. *)
Lemma op_postdec_spec_witness :
  (Polyclinic.patients empty_clinic = [] ∧
   Polyclinic.op_postdec (empty_clinic, ∅)
   = (Throw (EmptyClinicError "Немає пацієнтів для видалення"),
      (empty_clinic, ∅))) ∧
  (Polyclinic.patients demo_clinic ≠ [] ∧ owns demo_clinic demo_heap ∧
   ∃ (T R' : Polyclinic.t) (h' : heap),
     Polyclinic.op_postdec (demo_clinic, demo_heap) = (Ret T, (R', h')) ∧
     recordAt T h' 2 = recordAt demo_clinic demo_heap 2).
Proof.
  split.
  - split; [reflexivity|].
    exact (proj1 (op_postdec_spec empty_clinic ∅) eq_refl).
  - assert (Polyclinic.patients demo_clinic ≠ []) as Hne.
    { vm_compute. discriminate. }
    assert (owns demo_clinic demo_heap) as Hown.
    { apply ownsb_owns. vm_compute. reflexivity. }
    split; [exact Hne|]. split; [exact Hown|].
    destruct (proj2 (op_postdec_spec demo_clinic demo_heap) Hne Hown)
      as (T & R' & h' & p & Hrun & _ & Hrec & _).
    exists T, R', h'. split; [exact Hrun|exact (Hrec 2%nat)].
Defined.

(** ** Printing and saving *)

Lemma records_ext (l l' : list loc) (h h' : heap) :
  (λ q, h' !! q) <$> l' = (λ p, h !! p) <$> l →
  omap (λ q, h' !! q) l' = omap (λ p, h !! p) l.
Proof.
  revert l. induction l' as [|q l' IH]; intros [|p l] Heq;
    try discriminate Heq; [done|].
  injection Heq as Hq Heq. cbn [omap list_omap]. rewrite Hq.
  by rewrite (IH _ Heq).
Qed.

Lemma records_length (c : Polyclinic.t) (h : heap) :
  (∀ p, p ∈ Polyclinic.patients c → is_Some (h !! p)) →
  length (records c h) = length (Polyclinic.patients c).
Proof.
  unfold records. induction (Polyclinic.patients c) as [|p ps IH]; intros Hlive;
    [done|].
  destruct (Hlive p) as [o Ho]; [by left|].
  cbn [omap list_omap]. rewrite Ho. simpl. f_equal. apply IH.
  intros q Hq. apply Hlive. by right.
Qed.

Lemma print_each_run (ps : list loc) :
  ∀ (h : heap) (out : string),
    (∀ p, p ∈ ps → is_Some (h !! p)) →
    Polyclinic.print_each ps out h
    = (Ret (out +:+ infos_text (omap (λ p, h !! p) ps)), h).
Proof.
  induction ps as [|p rest IH]; intros h out Hlive.
  - simpl. by rewrite append_nil_r.
  - destruct (Hlive p) as [o Ho]; [by left|].
    cbn [Polyclinic.print_each omap list_omap]. unfold mbind, M_bind, deref.
    rewrite Ho. rewrite IH by (intros q Hq; apply Hlive; by right).
    simpl. by rewrite append_assoc.
Qed.

Lemma write_each_run (ps : list loc) (path : string) :
  ∀ (h : heap) (fs : filesystem) (old : string),
    files fs !! path = Some old →
    (∀ p, p ∈ ps → is_Some (h !! p)) →
    Polyclinic.write_each ps path (h, fs)
    = (Ret (),
       (h, {| can_open := can_open fs;
              files := <[path := old +:+ lines_text (omap (λ p, h !! p) ps)]>
                         (files fs) |})).
Proof.
  induction ps as [|p rest IH]; intros h fs old Hold Hlive.
  - simpl. rewrite append_nil_r, insert_id by done. by destruct fs.
  - destruct (Hlive p) as [o Ho]; [by left|].
    cbn [Polyclinic.write_each omap list_omap].
    unfold mbind, M_bind, with_files, deref, ofstream_put.
    cbn [fst snd]. rewrite !Ho. cbn [fst snd].
    rewrite Hold. cbn [default].
    erewrite IH; [|apply lookup_insert_eq|intros q Hq; apply Hlive; by right].
    cbn [can_open files lines_text foldr].
    by rewrite insert_insert_eq, !append_assoc.
Qed.

(** X11: [saveToFile(path)] on a path that cannot be opened throws
    [FileSaveError] with the text "Не вдається відкрити файл: " and the path,
    and changes nothing: no file, no object.  On a path that can be opened,
    for a roster with live records, it returns; the file at the path then
    holds exactly the lines of the records in order, each ended by a line
    feed (not what it held before; the empty text for a roster without
    records), every other file is as it was, and no object changes. *)
Theorem saveToFile_spec (R : Polyclinic.t) (h : heap) (fs : filesystem)
    (path : string) :
  (can_open fs path = false →
     Polyclinic.saveToFile R path (h, fs)
     = (Throw (FileSaveError ("Не вдається відкрити файл: " +:+ path)), (h, fs))) ∧
  (can_open fs path = true →
   (∀ p, p ∈ Polyclinic.patients R → is_Some (h !! p)) →
     ∃ fs' : filesystem,
       Polyclinic.saveToFile R path (h, fs) = (Ret (), (h, fs')) ∧
       files fs' !! path = Some (lines_text (records R h)) ∧
       length (records R h) = length (Polyclinic.patients R) ∧
       (∀ other, other ≠ path → files fs' !! other = files fs !! other) ∧
       can_open fs' = can_open fs).
Proof.
  split.
  - intros Hno.
    unfold Polyclinic.saveToFile, mbind, M_bind, ofstream_open. cbn [fst snd].
    by rewrite Hno.
  - intros Hyes Hlive. eexists. split.
    { unfold Polyclinic.saveToFile, mbind, M_bind, ofstream_open. cbn [fst snd].
      rewrite Hyes. cbn [negb].
      erewrite write_each_run; [reflexivity|apply lookup_insert_eq|done]. }
    cbn [files can_open]. split_and!.
    + by rewrite insert_insert_eq, lookup_insert_eq.
    + by apply records_length.
    + intros other Hother. by rewrite insert_insert_eq, lookup_insert_ne.
    + done.
Qed.

(** The witness of X11: the two [saveToFile] calls of [main]. *)
Lemma saveToFile_spec_witness :
  (can_open demo_files "nonexistent_dir/patients.txt" = false ∧
   Polyclinic.saveToFile demo_clinic "nonexistent_dir/patients.txt"
     (demo_heap, demo_files)
   = (Throw (FileSaveError
               "Не вдається відкрити файл: nonexistent_dir/patients.txt"),
      (demo_heap, demo_files))) ∧
  (can_open demo_files "patients.txt" = true ∧
   (∀ p, p ∈ Polyclinic.patients demo_clinic → is_Some (demo_heap !! p)) ∧
   ∃ fs' : filesystem,
     Polyclinic.saveToFile demo_clinic "patients.txt" (demo_heap, demo_files)
       = (Ret (), (demo_heap, fs')) ∧
     files fs' !! "patients.txt"
       = Some (lines_text (records demo_clinic demo_heap))).
Proof.
  split.
  - split; [reflexivity|].
    exact (proj1 (saveToFile_spec demo_clinic demo_heap demo_files
                    "nonexistent_dir/patients.txt") eq_refl).
  - assert (∀ p, p ∈ Polyclinic.patients demo_clinic → is_Some (demo_heap !! p))
      as Hlive.
    { apply ownsb_owns. vm_compute. reflexivity. }
    split; [reflexivity|]. split; [exact Hlive|].
    destruct (proj2 (saveToFile_spec demo_clinic demo_heap demo_files
                       "patients.txt") eq_refl Hlive)
      as (fs' & Hrun & Hfile & _).
    exists fs'. split; [exact Hrun|exact Hfile].
Defined.

(** The file [main] writes for its first three patients. *)
Example demo_file_text :
  lines_text (records demo_clinic demo_heap)
  = "Child|Марта|7|Застуда|Мама: +380501112233" +:+ newline
    +:+ "Elder|Петро|72|Серцеве захворювання|Пеніцилін|Інтенсивні фізичні навантаження"
    +:+ newline
    +:+ "Patient|Олексій|40|Грип" +:+ newline.
Proof. vm_compute. reflexivity. Qed.

(** X12: [printAllPatients] changes no object; on a roster without records
    it prints the one line "  [пацієнтів немає]", and on a roster with live
    records it prints the description of every record, in order, and nothing
    else. *)
Theorem printAllPatients_spec (R : Polyclinic.t) (h : heap) :
  (Polyclinic.patients R = [] →
     Polyclinic.printAllPatients R h
     = (Ret ("  [пацієнтів немає]" +:+ newline), h)) ∧
  (Polyclinic.patients R ≠ [] →
   (∀ p, p ∈ Polyclinic.patients R → is_Some (h !! p)) →
     Polyclinic.printAllPatients R h = (Ret (infos_text (records R h)), h) ∧
     length (records R h) = length (Polyclinic.patients R)).
Proof.
  unfold Polyclinic.printAllPatients. split.
  - intros ->. reflexivity.
  - intros Hne Hlive. destruct (decide (Polyclinic.patients R = [])); [done|].
    split; [|by apply records_length].
    by rewrite print_each_run.
Qed.

(** The witness of X12: [empty] and [c1] of [main]. *)
Lemma printAllPatients_spec_witness :
  (Polyclinic.patients empty_clinic = [] ∧
   Polyclinic.printAllPatients empty_clinic ∅
   = (Ret ("  [пацієнтів немає]" +:+ newline), ∅)) ∧
  (Polyclinic.patients demo_clinic ≠ [] ∧
   (∀ p, p ∈ Polyclinic.patients demo_clinic → is_Some (demo_heap !! p)) ∧
   Polyclinic.printAllPatients demo_clinic demo_heap
   = (Ret (infos_text (records demo_clinic demo_heap)), demo_heap)).
Proof.
  split.
  - split; [reflexivity|].
    exact (proj1 (printAllPatients_spec empty_clinic ∅) eq_refl).
  - assert (Polyclinic.patients demo_clinic ≠ []) as Hne.
    { vm_compute. discriminate. }
    assert (∀ p, p ∈ Polyclinic.patients demo_clinic → is_Some (demo_heap !! p))
      as Hlive.
    { apply ownsb_owns. vm_compute. reflexivity. }
    split; [exact Hne|]. split; [exact Hlive|].
    exact (proj1 (proj2 (printAllPatients_spec demo_clinic demo_heap) Hne Hlive)).
Defined.

(** X13: a copy of a roster prints and saves as the roster does: after
    copy construction, [printAllPatients] on the copy gives the text it gives
    on the source, and [saveToFile] of the copy leaves the files as
    [saveToFile] of the source does. *)
Theorem copy_prints_and_saves_alike (R : Polyclinic.t) (h : heap) :
  owns R h →
  ∃ (C : Polyclinic.t) (h' : heap),
    Polyclinic.ctor_copy R h = (Ret C, h') ∧
    records C h' = records R h ∧
    (∀ text, Polyclinic.printAllPatients R h = (Ret text, h) →
       Polyclinic.printAllPatients C h' = (Ret text, h')) ∧
    (∀ fs path fs',
       Polyclinic.saveToFile R path (h, fs) = (Ret (), (h, fs')) →
       Polyclinic.saveToFile C path (h', fs) = (Ret (), (h', fs'))).
Proof.
  intros [_ Hlive].
  destruct (ctor_copy_run R h Hlive)
    as (C & h' & Hrun & _ & _ & _ & _ & _ & _ & Hobjs).
  pose proof (objects_live _ _ _ _ Hobjs Hlive) as HliveC.
  pose proof (records_ext _ _ _ _ Hobjs) as Hrecs.
  assert (Polyclinic.patients C = [] ↔ Polyclinic.patients R = []) as Hnil.
  { apply (f_equal length) in Hobjs. rewrite !length_fmap in Hobjs.
    split; intros Hz; rewrite Hz in Hobjs; simpl in Hobjs.
    - apply nil_length_inv. lia.
    - by apply nil_length_inv. }
  exists C, h'. split; [done|]. split; [done|]. split.
  - intros text. unfold Polyclinic.printAllPatients.
    destruct (decide (Polyclinic.patients R = [])) as [HR|HR],
             (decide (Polyclinic.patients C = [])) as [HC|HC];
      try (exfalso; tauto).
    + intros [= <-]. done.
    + rewrite !print_each_run by done. rewrite Hrecs. by intros [= <-].
  - intros fs path fs'.
    unfold Polyclinic.saveToFile, mbind, M_bind, ofstream_open. cbn [fst snd].
    destruct (can_open fs path); cbn [negb]; [|discriminate].
    erewrite !write_each_run by (apply lookup_insert_eq || done).
    rewrite Hrecs. by intros [= <-].
Qed.

(** The witness of X13, on the roster of [main]. *)
Lemma copy_prints_and_saves_alike_witness :
  owns demo_clinic demo_heap ∧
  ∃ (C : Polyclinic.t) (h' : heap),
    Polyclinic.ctor_copy demo_clinic demo_heap = (Ret C, h') ∧
    records C h' = records demo_clinic demo_heap.
Proof.
  assert (owns demo_clinic demo_heap) as Hown.
  { apply ownsb_owns. vm_compute. reflexivity. }
  split; [exact Hown|].
  destruct (copy_prints_and_saves_alike demo_clinic demo_heap Hown)
    as (C & h' & Hrun & Hrecs & _).
  exists C, h'. split; [exact Hrun|exact Hrecs].
Defined.

(** ** Equality of rosters across copy and increment *)

Lemma wrap_int_succ_ne (z : Z) : wrap_int z ≠ wrap_int (z + 1).
Proof.
  unfold wrap_int. intros Heq.
  pose proof (Z.div_mod (z + 2 ^ 31) (2 ^ 32) ltac:(lia)) as H1.
  pose proof (Z.div_mod (z + 1 + 2 ^ 31) (2 ^ 32) ltac:(lia)) as H2.
  assert ((z + 2 ^ 31) `mod` 2 ^ 32 = (z + 1 + 2 ^ 31) `mod` 2 ^ 32) as Hm by lia.
  rewrite <- Hm in H2. lia.
Qed.

(** X16: after [T = c++] on a roster that owns its records, [T == c] is
    false and [c != T] is true, whatever the size, while the value returned
    compares equal to the roster as it was before the call. *)
Theorem op_postinc_changes_equality (R : Polyclinic.t) (h : heap) :
  owns R h →
  ∃ (T R' : Polyclinic.t) (h' : heap),
    Polyclinic.op_postinc (R, h) = (Ret T, (R', h')) ∧
    Polyclinic.op_eq T R = true ∧
    Polyclinic.op_eq T R' = false ∧
    Polyclinic.op_ne R' T = true.
Proof.
  intros [_ Hlive].
  destruct (ctor_copy_run R h Hlive)
    as (T & h1 & Hrun & _ & _ & _ & _ & _ & _ & Hobjs).
  apply (f_equal length) in Hobjs. rewrite !length_fmap in Hobjs.
  eexists T, _, _. split.
  { unfold Polyclinic.op_postinc, mbind, M_bind, Polyclinic.get_this,
      Polyclinic.on_heap, Polyclinic.op_preinc. cbn [fst snd].
    rewrite Hrun. cbn [fst snd]. rewrite addPatient_run. reflexivity. }
  unfold Polyclinic.op_ne, Polyclinic.op_eq, Polyclinic.getPatientsCount,
    static_cast_int.
  cbn [Polyclinic.patients]. rewrite length_app, Hobjs. cbn [length].
  replace (Z.of_nat (length (Polyclinic.patients R) + 1))
    with (Z.of_nat (length (Polyclinic.patients R)) + 1) by lia.
  pose proof (wrap_int_succ_ne (Z.of_nat (length (Polyclinic.patients R)))) as Hne.
  split; [by apply Z.eqb_eq|]. split.
  - by apply Z.eqb_neq.
  - apply negb_true_iff, Z.eqb_neq. congruence.
Qed.

(** The witness of X16, on the roster of [main]. *)
Lemma op_postinc_changes_equality_witness :
  owns demo_clinic demo_heap ∧
  ∃ (T R' : Polyclinic.t) (h' : heap),
    Polyclinic.op_postinc (demo_clinic, demo_heap) = (Ret T, (R', h')) ∧
    Polyclinic.op_eq T R' = false.
Proof.
  assert (owns demo_clinic demo_heap) as Hown.
  { apply ownsb_owns. vm_compute. reflexivity. }
  split; [exact Hown|].
  destruct (op_postinc_changes_equality demo_clinic demo_heap Hown)
    as (T & R' & h' & Hrun & _ & Hne & _).
  exists T, R', h'. split; [exact Hrun|exact Hne].
Defined.

(** ** Sequences of calls *)

(** One call on a roster that owns its records: it returns or throws, the
    roster still owns its records, its scalar fields are the same, and no
    live object outside the roster is touched or taken in. *)
Lemma run_call_step (c : call) (R : Polyclinic.t) (h : heap) :
  owns R h →
  ∃ (r : outcome ()) (R' : Polyclinic.t) (h' : heap),
    run_call c (R, h) = (r, (R', h')) ∧ r ≠ Undef ∧
    owns R' h' ∧
    Polyclinic.name R' = Polyclinic.name R ∧
    Polyclinic.address R' = Polyclinic.address R ∧
    Polyclinic.doctorsCount R' = Polyclinic.doctorsCount R ∧
    (∀ l, is_Some (h !! l) → l ∉ Polyclinic.patients R →
       h' !! l = h !! l ∧ l ∉ Polyclinic.patients R').
Proof.
  intros Hown.
  assert (∀ o, ∃ (r : outcome ()) (R' : Polyclinic.t) (h' : heap),
            Polyclinic.addPatient o (R, h) = (r, (R', h')) ∧ r ≠ Undef ∧
            owns R' h' ∧
            Polyclinic.name R' = Polyclinic.name R ∧
            Polyclinic.address R' = Polyclinic.address R ∧
            Polyclinic.doctorsCount R' = Polyclinic.doctorsCount R ∧
            (∀ l, is_Some (h !! l) → l ∉ Polyclinic.patients R →
               h' !! l = h !! l ∧ l ∉ Polyclinic.patients R')) as Hadd.
  { intros o.
    destruct (addPatient_owned R h o Hown)
      as (R' & h' & q & Hrun & Hname & Haddr & Hdoc & Hps & Hq & -> & HqR & Hown').
    exists (Ret ()), R', (<[q := o]> h). split_and!; try done.
    intros l [x Hx] Hl. split.
    - apply lookup_insert_ne. intros ->. congruence.
    - rewrite Hps. intros [?| ->%list_elem_of_singleton]%elem_of_app; [done|].
      congruence. }
  assert (∃ (r : outcome ()) (R' : Polyclinic.t) (h' : heap),
            Polyclinic.removeLastPatient (R, h) = (r, (R', h')) ∧ r ≠ Undef ∧
            owns R' h' ∧
            Polyclinic.name R' = Polyclinic.name R ∧
            Polyclinic.address R' = Polyclinic.address R ∧
            Polyclinic.doctorsCount R' = Polyclinic.doctorsCount R ∧
            (∀ l, is_Some (h !! l) → l ∉ Polyclinic.patients R →
               h' !! l = h !! l ∧ l ∉ Polyclinic.patients R')) as Hlast.
  { destruct (decide (Polyclinic.patients R = [])) as [Hnil|Hne].
    - eexists _, R, h. split; [by apply removeLastPatient_empty|].
      by split_and!.
    - destruct (removeLastPatient_owned R h Hown Hne)
        as (R' & p & Hrun & Hname & Haddr & Hdoc & Hps & _ & Hown').
      exists (Ret ()), R', (delete p h). split_and!; try done.
      intros l _ Hl. rewrite Hps in Hl. apply not_elem_of_app in Hl as [Hl Hlp].
      split; [|done]. apply lookup_delete_ne. intros ->. apply Hlp. by left. }
  destruct c; cbn [run_call]; unfold RoleAdmin.addDefaultPatient,
    RoleAdmin.addChildPatient, RoleAdmin.addElderPatient, RoleAdmin.removeAt,
    Polyclinic.addChild, Polyclinic.addElder, Polyclinic.op_preinc,
    Polyclinic.op_predec; try done.
  destruct (Nat.lt_ge_cases index (length (Polyclinic.patients R))) as [Hlt|Hge].
  - destruct (lookup_lt_is_Some_2 _ _ Hlt) as [p Hp].
    destruct (erase_run R h index p Hown Hp)
      as (R' & Hrun & Hname & Haddr & Hdoc & Hpat & _ & _ & Hown').
    exists (Ret ()), R', (delete p h). split.
    { run_member Polyclinic.removePatientByIndex.
      by rewrite (proj2 (Nat.leb_gt _ _) Hlt). }
    split_and!; try done.
    intros l _ Hl. split.
    + apply lookup_delete_ne. intros ->. apply Hl.
      by eapply list_elem_of_lookup_2.
    + rewrite Hpat. intros Hin. apply Hl.
      eapply elem_of_sublist; [done|apply sublist_delete].
  - eexists _, R, h. split.
    { run_member Polyclinic.removePatientByIndex.
      by rewrite (proj2 (Nat.leb_le _ _) Hge). }
    by split_and!.
Qed.

Lemma run_calls_sound (cs : list call) :
  ∀ (R : Polyclinic.t) (h : heap),
    owns R h →
    ∃ (R' : Polyclinic.t) (h' : heap),
      run_calls cs (R, h) = Some (R', h') ∧
      owns R' h' ∧
      Polyclinic.name R' = Polyclinic.name R ∧
      Polyclinic.address R' = Polyclinic.address R ∧
      Polyclinic.doctorsCount R' = Polyclinic.doctorsCount R ∧
      (∀ l, is_Some (h !! l) → l ∉ Polyclinic.patients R →
         h' !! l = h !! l ∧ l ∉ Polyclinic.patients R').
Proof.
  induction cs as [|c cs IH]; intros R h Hown.
  - exists R, h. by split_and!.
  - destruct (run_call_step c R h Hown)
      as (r & R1 & h1 & Hrun & Hr & Hown1 & Hname1 & Haddr1 & Hdoc1 & Hframe1).
    destruct (IH R1 h1 Hown1)
      as (R' & h' & Hruns & Hown' & Hname & Haddr & Hdoc & Hframe).
    exists R', h'. split.
    { cbn [run_calls]. rewrite Hrun. by destruct r. }
    split; [done|]. split; [congruence|]. split; [congruence|].
    split; [congruence|].
    intros l Hl HlR. destruct (Hframe1 l Hl HlR) as [Heq1 Hl1].
    destruct (Hframe l) as [Heq Hl']; [by rewrite Heq1|done|].
    split; [congruence|done].
Qed.

(** X18: whatever calls a client makes on a roster that owns its records
    (additions, removals by index or from the end, [++] and [--], in any
    number and order, the exceptions caught), no call runs into undefined
    behaviour, the roster owns its records after the last call, and its name,
    address and doctor count are what they were. *)
Theorem calls_keep_the_roster_sound (cs : list call) (R : Polyclinic.t)
    (h : heap) :
  owns R h →
  ∃ (R' : Polyclinic.t) (h' : heap),
    run_calls cs (R, h) = Some (R', h') ∧
    owns R' h' ∧
    Polyclinic.name R' = Polyclinic.name R ∧
    Polyclinic.address R' = Polyclinic.address R ∧
    Polyclinic.doctorsCount R' = Polyclinic.doctorsCount R.
Proof.
  intros Hown.
  destruct (run_calls_sound cs R h Hown)
    as (R' & h' & Hrun & Hown' & Hname & Haddr & Hdoc & _).
  by exists R', h'.
Qed.

(** The witness of X18: the calls of [main] on the roster of [main]. *)
Lemma calls_keep_the_roster_sound_witness :
  owns demo_clinic demo_heap ∧
  ∃ (R' : Polyclinic.t) (h' : heap),
    run_calls main_calls (demo_clinic, demo_heap) = Some (R', h') ∧
    owns R' h' ∧
    Polyclinic.doctorsCount R' = 25.
Proof.
  assert (owns demo_clinic demo_heap) as Hown.
  { apply ownsb_owns. vm_compute. reflexivity. }
  split; [exact Hown|].
  destruct (calls_keep_the_roster_sound main_calls demo_clinic demo_heap Hown)
    as (R' & h' & Hrun & Hown' & _ & _ & Hdoc).
  exists R', h'. split; [exact Hrun|]. split; [exact Hown'|exact Hdoc].
Defined.

(** X19: calls on one roster never touch the objects of another: an object
    that is alive and not a record of the roster when the calls begin is
    alive and unchanged after them, and has not become a record of the
    roster. *)
Theorem calls_leave_other_objects (cs : list call) (R R' : Polyclinic.t)
    (h h' : heap) (l : loc) :
  owns R h →
  run_calls cs (R, h) = Some (R', h') →
  is_Some (h !! l) → l ∉ Polyclinic.patients R →
  h' !! l = h !! l ∧ l ∉ Polyclinic.patients R'.
Proof.
  intros Hown Hrun Hl HlR.
  destruct (run_calls_sound cs R h Hown) as (R1 & h1 & Hrun1 & _ & _ & _ & _ & Hframe).
  rewrite Hrun in Hrun1. injection Hrun1 as <- <-. by apply Hframe.
Qed.

(** The witness of X19: the calls of [main], made on the second roster,
    leave the first record of the roster of [main] alone. *)
Lemma calls_leave_other_objects_witness :
  owns second_clinic shared_heap ∧
  is_Some ((shared_heap : heap) !! 1%positive) ∧
  (1%positive ∉ Polyclinic.patients second_clinic) ∧
  ∃ (R' : Polyclinic.t) (h' : heap),
    run_calls main_calls (second_clinic, shared_heap) = Some (R', h') ∧
    h' !! 1%positive = (shared_heap : heap) !! 1%positive ∧
    1%positive ∉ Polyclinic.patients R'.
Proof.
  assert (owns second_clinic shared_heap) as Hown.
  { apply ownsb_owns. vm_compute. reflexivity. }
  assert (is_Some ((shared_heap : heap) !! 1%positive)) as Hl.
  { vm_compute. eexists. reflexivity. }
  assert (1%positive ∉ Polyclinic.patients second_clinic) as HlR.
  { intros Hin. apply list_elem_of_In in Hin. vm_compute in Hin.
    intuition discriminate. }
  split; [exact Hown|]. split; [exact Hl|]. split; [exact HlR|].
  destruct (run_calls_sound main_calls second_clinic shared_heap Hown)
    as (R' & h' & Hrun & _).
  exists R', h'. split; [exact Hrun|].
  exact (calls_leave_other_objects main_calls second_clinic R'
           shared_heap h' 1%positive Hown Hrun Hl HlR).
Defined.

(** X20: on a roster with records, removing at the last index is removing
    the last record: [removePatientByIndex(size - 1)] and [removeLastPatient]
    end in the same way in the same state. *)
Theorem remove_at_last_index_is_remove_last (R : Polyclinic.t) (h : heap) :
  Polyclinic.patients R ≠ [] →
  Polyclinic.removePatientByIndex (length (Polyclinic.patients R) - 1) (R, h)
  = Polyclinic.removeLastPatient (R, h).
Proof.
  intros Hne.
  destruct (Polyclinic.patients R) as [|p ps _] eqn:Hps using rev_ind; [done|].
  run_member Polyclinic.removePatientByIndex.
  run_member Polyclinic.removeLastPatient. rewrite Hps.
  destruct (decide (ps ++ [p] = [])) as [Hnil|_]; [by destruct ps|].
  rewrite length_app. cbn [length].
  replace (length ps + 1 - 1)%nat with (length ps) by lia.
  rewrite (proj2 (Nat.leb_gt _ _)) by lia.
  run_member Polyclinic.erase. run_member Polyclinic.pop_back.
  rewrite Hps, list_lookup_middle, last_snoc, removelast_last by done.
  by rewrite (delete_middle ps [] p), app_nil_r.
Qed.

(** The witness of X20, on the roster of [main]. *)
Lemma remove_at_last_index_is_remove_last_witness :
  Polyclinic.patients demo_clinic ≠ [] ∧
  Polyclinic.removePatientByIndex 2 (demo_clinic, demo_heap)
  = Polyclinic.removeLastPatient (demo_clinic, demo_heap).
Proof.
  assert (Polyclinic.patients demo_clinic ≠ []) as Hne.
  { vm_compute. discriminate. }
  split; [exact Hne|].
  exact (remove_at_last_index_is_remove_last demo_clinic demo_heap Hne).
Defined.

(** X21: a roster and its copy are independent: whatever calls are made on
    the copy, the source holds at every index the record it held, and
    whatever calls are made on the source, the copy holds at every index the
    record the source held when it was copied. *)
Theorem copy_is_independent (R : Polyclinic.t) (h : heap) :
  owns R h →
  ∃ (C : Polyclinic.t) (h1 : heap),
    Polyclinic.ctor_copy R h = (Ret C, h1) ∧
    (∀ cs C' h2, run_calls cs (C, h1) = Some (C', h2) →
       ∀ i, recordAt R h2 i = recordAt R h i) ∧
    (∀ cs R' h2, run_calls cs (R, h1) = Some (R', h2) →
       ∀ i, recordAt C h2 i = recordAt R h i).
Proof.
  intros [HndR Hlive].
  destruct (ctor_copy_run R h Hlive)
    as (C & h1 & Hrun & _ & _ & _ & HndC & Hnew & Hframe & Hobjs).
  pose proof (objects_live _ _ _ _ Hobjs Hlive) as HliveC.
  assert (∀ p, p ∈ Polyclinic.patients R → h1 !! p = h !! p) as HkeptR.
  { intros p Hp. apply Hframe. by eapply live_not_new; [|apply Hlive]. }
  assert (∀ p, p ∈ Polyclinic.patients R → p ∉ Polyclinic.patients C) as Hdisj.
  { intros p Hp. by eapply live_not_new; [|apply Hlive]. }
  assert (owns C h1) as HownC by done.
  assert (owns R h1) as HownR.
  { split; [done|]. intros p Hp. rewrite HkeptR by done. by apply Hlive. }
  exists C, h1. split; [done|]. split.
  - intros cs C' h2 Hcalls i. rewrite !recordAt_lookup.
    destruct (Polyclinic.patients R !! i) as [p|] eqn:Hp; [|done]. simpl.
    assert (p ∈ Polyclinic.patients R) as Hin by (by eapply list_elem_of_lookup_2).
    destruct (run_calls_sound cs C h1 HownC) as (C1 & h3 & Hcalls' & _ & _ & _ & _ & Hfr).
    rewrite Hcalls in Hcalls'. injection Hcalls' as <- <-.
    destruct (Hfr p) as [-> _]; [by apply HownR|by apply Hdisj|].
    by apply HkeptR.
  - intros cs R' h2 Hcalls i.
    rewrite <- (recordAt_ext R C h h1 Hobjs i). rewrite !recordAt_lookup.
    destruct (Polyclinic.patients C !! i) as [q|] eqn:Hq; [|done]. simpl.
    assert (q ∈ Polyclinic.patients C) as Hin by (by eapply list_elem_of_lookup_2).
    destruct (run_calls_sound cs R h1 HownR) as (R1 & h3 & Hcalls' & _ & _ & _ & _ & Hfr).
    rewrite Hcalls in Hcalls'. injection Hcalls' as <- <-.
    destruct (Hfr q) as [-> _]; [by apply HliveC| |done].
    intros HqR. by eapply Hdisj.
Qed.

(** The witness of X21: the roster of [main] is copied and the calls of
    [main] are made on the copy. *)
Lemma copy_is_independent_witness :
  owns demo_clinic demo_heap ∧
  ∃ (C : Polyclinic.t) (h1 : heap),
    Polyclinic.ctor_copy demo_clinic demo_heap = (Ret C, h1) ∧
    (∀ C' h2, run_calls main_calls (C, h1) = Some (C', h2) →
       recordAt demo_clinic h2 0 = recordAt demo_clinic demo_heap 0).
Proof.
  assert (owns demo_clinic demo_heap) as Hown.
  { apply ownsb_owns. vm_compute. reflexivity. }
  split; [exact Hown|].
  destruct (copy_is_independent demo_clinic demo_heap Hown)
    as (C & h1 & Hrun & Hsrc & _).
  exists C, h1. split; [exact Hrun|].
  intros C' h2 Hcalls. exact (Hsrc main_calls C' h2 Hcalls 0%nat).
Defined.
